(** * train_encoder.py: the distributed training loop of the CT encoder

    A shallow embedding of [src/train_encoder.py] and the properties of its
    loss engine, its EMA maintainer, its per-batch coordinator, and its
    command-line entry point.

    Numeric conventions.  Tensor entries of the loss engine are real numbers
    (the loss needs [sqrt], [exp] and [ln]); parameters and the Python-level
    loss bookkeeping are exact rationals, extended with a NaN value where the
    code tests for it.  Rounding of the float32/float64 representations is
    not part of this model.

    Library calls ([F.normalize], [F.cross_entropy], [GradScaler], the
    [loguru] logger, [argparse]) are embedded by their documented behaviour
    with the arguments the script passes.

    The definitions come first, one module per component; the properties
    follow in the same order. *)

From Stdlib Require Import Reals Lra Lia ZArith QArith Qcanon String Ascii.
From Stdlib Require Import DecimalString DecimalN DecimalPos.
From stdpp Require Import base option list gmap strings numbers.

(** ** Python exceptions raised by the script *)

Module Py.

Inductive exn : Type :=
| KeyError (key : string)
| AttributeError (attr : string)
| AssertionError (msg : string)
| RuntimeError (msg : string)
| TypeError
| OSError
| ZeroDivisionError.

End Py.

(** ** Loss engine: [infoNCE_loss_b] (lines 29-36) *)

Module LossEngine.

Local Open Scope R_scope.

(** A tensor of shape (batch, sequence, feature), and a matrix of rows. *)
Definition tensor3 : Type := list (list (list R)).
Definition matrix : Type := list (list R).

Definition rsum (l : list R) : R := foldr Rplus 0 l.

(** [input_tensor.reshape(batch_size, seq_len*feat_dim)]: each sample is
    laid out row-major. *)
Definition reshape (input_tensor : tensor3) : matrix :=
  map (@concat R) input_tensor.

(** [torch.linalg.vector_norm] for p = 2 along dim 1: (sum |x|^2)^(1/2). *)
Definition vector_norm (v : list R) : R :=
  sqrt (rsum (map (fun x => Rabs x ^ 2) v)).

(** Default [eps] of [F.normalize]. *)
Definition normalize_eps : R := / 10 ^ 12.

(** [F.normalize(m, p=2, dim=1)]: every row is divided by its norm clamped
    from below by [eps]. *)
Definition normalize (m : matrix) : matrix :=
  map (fun v => map (fun x => x / Rmax (vector_norm v) normalize_eps) v) m.

Definition dot (u v : list R) : R := rsum (zip_with Rmult u v).

(** [torch.matmul(a, b.T)]: entry (i, j) is the dot product of row i of [a]
    with row j of [b]. *)
Definition matmul_T (a b : matrix) : matrix :=
  map (fun u => map (fun v => dot u v) b) a.

Definition arange (n : nat) : list nat := seq 0 n.

(** [F.cross_entropy(input, target)] with the default mean reduction:
    the negative log-softmax of every row at its target class, averaged over
    the rows. *)
Definition log_softmax (row : list R) : list R :=
  map (fun x => x - ln (rsum (map exp row))) row.

Definition nll (row : list R) (target : nat) : R :=
  - nth target (log_softmax row) 0.

Definition cross_entropy (input : matrix) (target : list nat) : R :=
  rsum (zip_with nll input target) / INR (length input).

Definition default_tau : R := 7 / 100.

Definition infoNCE_loss_b (input_tensor : tensor3) (tau : R) : R :=
  let reshaped_tensor := reshape input_tensor in
  let reshaped_tensor := normalize reshaped_tensor in
  let sim_matrix :=
    map (map (fun s => s / tau)) (matmul_T reshaped_tensor reshaped_tensor) in
  let labels := arange (length reshaped_tensor) in
  cross_entropy sim_matrix labels.

(** Uniform rescaling of a tensor by a scalar. *)
Definition scale (c : R) (x : tensor3) : tensor3 :=
  map (map (map (Rmult c))) x.

(** Two orthogonal samples of one token and two features each; the first
    is 1e-13 long. *)
Definition tiny_rows : tensor3 := [[[/ 10000000000000; 0]]; [[0; 1]]].
Definition unit_rows : tensor3 := [[[1; 0]]; [[0; 1]]].

(** The loss of a row against its own index when every other similarity
    is zero, as a function of the row's scaled self-similarity. *)
Definition own_term (s : R) : R := - ln (exp s / (exp s + 1)).

(** *** The loss as the specification words it

    Flatten, divide every row by its Euclidean length, take all pairwise dot
    products times 1/τ with τ = 0.07, and average over the rows the negative
    logarithm of the softmax probability of the row's own index. *)
Module Spec.

Definition l2_norm (v : list R) : R := sqrt (dot v v).

Definition l2_normalize (v : list R) : list R := map (fun x => x / l2_norm v) v.

Definition rows (x : tensor3) : matrix := map (@concat R) x.

Definition similarity (x : tensor3) (i j : nat) : R :=
  dot (l2_normalize (nth i (rows x) [])) (l2_normalize (nth j (rows x) []))
  * (1 / (7 / 100)).

Definition softmax_prob (x : tensor3) (i k : nat) : R :=
  exp (similarity x i k)
  / rsum (map (fun j => exp (similarity x i j)) (seq 0 (length (rows x)))).

Definition loss (x : tensor3) : R :=
  rsum (map (fun i => - ln (softmax_prob x i i)) (seq 0 (length (rows x))))
  / INR (length (rows x)).

End Spec.

End LossEngine.

(** ** EMA maintainer: [update_ema] (lines 38-48) *)

Module EMA.
Import Py.

Local Open Scope Qc_scope.

(** The entries of a parameter tensor, row-major.  Two tensors have the same
    shape when they have the same number of entries; broadcasting between
    different shapes is not part of the model. *)
Definition tensor : Type := list Qc.

(** The part of the interpreter state [update_ema] works on: the tensors
    behind [ema_model.named_parameters()], which the in-place operations
    mutate, the autograd mode, and the operations autograd has recorded. *)
Record torch : Type := Torch {
  params : gmap string tensor;
  grad_enabled : bool;
  tape : list string;
}.

Definition set_params (f : gmap string tensor -> gmap string tensor)
    (st : torch) : torch :=
  Torch (f (params st)) (grad_enabled st) (tape st).

Definition set_grad_enabled (b : bool) (st : torch) : torch :=
  Torch (params st) b (tape st).

(** Computations that mutate the state and may raise. *)
Definition M (A : Type) : Type := torch -> torch * (exn + A).

Definition ret {A : Type} (a : A) : M A := fun st => (st, inr a).

Definition raise {A : Type} (e : exn) : M A := fun st => (st, inl e).

Definition bind {A B : Type} (m : M A) (k : A -> M B) : M B :=
  fun st =>
    match m st with
    | (st', inr a) => k a st'
    | (st', inl e) => (st', inl e)
    end.

Local Notation "x <- m ;; k" := (bind m (fun x => k))
  (at level 100, m at next level, right associativity, only parsing).

(** [ema_params[name]] *)
Definition getitem (name : string) : M tensor :=
  fun st =>
    match params st !! name with
    | Some t => (st, inr t)
    | None => (st, inl (KeyError name))
    end.

(** Autograd records an operation only while the grad mode is on. *)
Definition record (op : string) : M unit :=
  fun st =>
    (if grad_enabled st
     then Torch (params st) (grad_enabled st) (tape st ++ [op])
     else st, inr tt).

Definition store (name : string) (t : tensor) : M unit :=
  fun st => (set_params <[name := t]> st, inr tt).

(** [t.mul_(decay)] on the tensor stored under [name]. *)
Definition mul_ (name : string) (t : tensor) (decay : Qc) : M tensor :=
  let t' := map (fun x => x * decay) t in
  _ <- record "mul_" ;; _ <- store name t' ;; ret t'.

(** [t.add_(other, alpha=alpha)] on the tensor stored under [name]. *)
Definition add_ (name : string) (t other : tensor) (alpha : Qc) : M tensor :=
  if decide (length t = length other) then
    let t' := zip_with (fun x y => x + alpha * y) t other in
    _ <- record "add_" ;; _ <- store name t' ;; ret t'
  else raise (RuntimeError "The size of tensor a must match the size of tensor b").

Fixpoint for_each {A : Type} (items : list A) (body : A -> M unit) : M unit :=
  match items with
  | [] => ret tt
  | x :: rest => _ <- body x ;; for_each rest body
  end.

(** The decorator [@torch.no_grad()]: the body runs with the grad mode off,
    and the previous mode is restored on return and on exception. *)
Definition no_grad {A : Type} (f : M A) : M A :=
  fun st =>
    let prev := grad_enabled st in
    let '(st', r) := f (set_grad_enabled false st) in
    (set_grad_enabled prev st', r).

(** The loop body:
    [ema_params[name].mul_(decay).add_(param.data, alpha=1 - decay)]. *)
Definition update_one (decay : Qc) (item : string * tensor) : M unit :=
  let '(name, param) := item in
  t <- getitem name ;;
  t <- mul_ name t decay ;;
  _ <- add_ name t param (1 - decay) ;;
  ret tt.

Definition update_ema_body (model_params : list (string * tensor)) (decay : Qc)
    : M unit :=
  for_each model_params (update_one decay).

(** [update_ema(ema_model, model, decay)]: the state is the EMA model,
    [model_params] the items of [OrderedDict(model.named_parameters())] in
    order.  The EMA model is a deep copy of the model (line 79), so no live
    tensor is one of the tensors the update mutates. *)
Definition update_ema (model_params : list (string * tensor)) (decay : Qc)
    : M unit :=
  no_grad (update_ema_body model_params decay).

Definition default_decay : Qc := Q2Qc (9999 # 10000).

(** The update law as the specification states it, entry by entry. *)
Definition blend (d : Qc) (shadow live : tensor) : tensor :=
  zip_with (fun s l => s * d + l * (1 - d)) shadow live.

(** Sample parameter sets: a shadow set with the names of the live set, and
    a shadow set with one name more than the live set. *)
Definition sample_shadow : torch :=
  Torch (<["w" := [0]]> (<["b" := [1; Q2Qc 2]]> ∅)) true [].
Definition sample_live : list (string * tensor) :=
  [("w", [1]); ("b", [Q2Qc 3; Q2Qc 4])].
Definition shadow_extra : torch :=
  Torch (<["w" := [1]]> (<["extra" := [Q2Qc 5]]> ∅)) true [].
Definition live_w : list (string * tensor) := [("w", [Q2Qc 2])].
Definition shadow_short : torch := Torch (<["w" := [1]]> ∅) true [].
Definition live_more : list (string * tensor) :=
  [("w", [Q2Qc 2]); ("extra", [Q2Qc 5])].

(** Every live parameter has a shadow parameter of the same shape. *)
Definition covered (model_params : list (string * tensor))
    (m : gmap string tensor) : Prop :=
  Forall (fun it => match m !! it.1 with
                    | Some s => length s = length it.2
                    | None => False
                    end) model_params.

(** Shadow and live parameters of the same name have the same shape. *)
Definition shapes_agree (model_params : list (string * tensor))
    (m : gmap string tensor) : Prop :=
  Forall (fun it => match m !! it.1 with
                    | Some s => length s = length it.2
                    | None => True
                    end) model_params.

(** A tensor whose entries lie between two bounds. *)
Definition in_range (lo hi : Qc) (t : tensor) : Prop :=
  Forall (fun x => lo <= x <= hi) t.

(** A shadow set that holds the values of the live set [live_w]. *)
Definition shadow_same : torch := Torch (<["w" := [Q2Qc 2]]> ∅) true [].

End EMA.

(** ** Training loop coordinator: [main] (lines 51-169) *)

Module Coordinator.
Import Py.

Local Open Scope Z_scope.

(** *** Python floats and integers *)

(** A float is NaN or a number. *)
Inductive fval : Type :=
| FNaN
| FNum (q : Qc).

Definition isnan (v : fval) : bool :=
  match v with FNaN => true | FNum _ => false end.

Definition of_Z (z : Z) : fval := FNum (Q2Qc (inject_Z z)).

Definition fadd (a b : fval) : fval :=
  match a, b with
  | FNum x, FNum y => FNum (x + y)%Qc
  | _, _ => FNaN
  end.

Definition fmul (a b : fval) : fval :=
  match a, b with
  | FNum x, FNum y => FNum (x * y)%Qc
  | _, _ => FNaN
  end.

Definition fsum (l : list fval) : fval := foldr fadd (FNum 0%Qc) l.

(** [a / b]: division by zero raises. *)
Definition py_div (a b : fval) : exn + fval :=
  match b with
  | FNum y =>
      if decide (y = 0%Qc) then inl ZeroDivisionError
      else inr (match a with FNum x => FNum (x / y)%Qc | FNaN => FNaN end)
  | FNaN => inr FNaN
  end.

(** [a // b] on integers rounds down; zero raises. *)
Definition py_floordiv (a b : Z) : exn + Z :=
  if b =? 0 then inl ZeroDivisionError else inr (a / b).

(** [a % b] on integers: the sign follows the divisor; zero raises. *)
Definition py_mod (a b : Z) : exn + Z :=
  if b =? 0 then inl ZeroDivisionError else inr (a mod b).

(** [f"{z:0{width}d}"]: decimal digits padded with zeros on the left, the
    sign first. *)
Definition digits (n : N) : string := NilZero.string_of_uint (N.to_uint n).

Fixpoint zeros (n : nat) : string :=
  match n with O => EmptyString | S n => String "0" (zeros n) end.

Definition zfill (width : nat) (s : string) : string :=
  (zeros (width - String.length s) ++ s)%string.

Definition format_0d (width : nat) (z : Z) : string :=
  if z <? 0 then ("-" ++ zfill (width - 1) (digits (Z.to_N (- z))))%string
  else zfill width (digits (Z.to_N z)).

(** *** Configuration and distributed context *)

(** The attributes of [args] read after start-up. *)
Record args : Type := Args {
  results_dir : string;
  epochs : Z;
  global_batch_size : Z;
  log_every : Z;
  ckpt_every : Z;
  wandb : bool;
  autocast : bool;
}.

(** What a process knows of its surroundings: its rank, the world size, the
    number of entries [glob] found under the results directory at start-up,
    and the length of the training dataset. *)
Record ctx : Type := Ctx {
  c_args : args;
  rank : Z;
  world_size : Z;
  experiment_index : Z;
  dataset_len : Z;
}.

Definition model_string_name : string := "vision_encoder".

Definition experiment_dir (c : ctx) : string :=
  (results_dir (c_args c) ++ "/" ++ format_0d 3 (experiment_index c)
   ++ "-" ++ model_string_name)%string.

Definition checkpoint_dir (c : ctx) : string :=
  (experiment_dir c ++ "/checkpoints")%string.

Definition checkpoint_path (c : ctx) (train_steps : Z) : string :=
  (checkpoint_dir c ++ "/" ++ format_0d 7 train_steps ++ ".pt")%string.

(** *** The logger

    [loguru]'s [logger] starts with one handler, which writes to standard
    error; [create_logger] adds a file on rank 0 and returns the same
    logger on every rank. *)
Inductive sink : Type :=
| Stderr
| LogFile (path : string).

Definition loguru_default_sinks : list sink := [Stderr].

Definition py_str (d : option string) : string :=
  match d with Some s => s | None => "None" end.

Definition create_logger (rank : Z) (logging_dir : option string) : list sink :=
  if rank =? 0
  then loguru_default_sinks
       ++ [LogFile (py_str logging_dir ++ "/log" ++ "_" ++ format_0d 0 rank
                    ++ ".txt")%string]
  else loguru_default_sinks.

(** Lines 60-74: rank 0 passes its experiment directory, the others [None]. *)
Definition logger (c : ctx) : list sink :=
  if rank c =? 0 then create_logger (rank c) (Some (experiment_dir c))
  else create_logger (rank c) None.

(** The messages of the loop.  The step is formatted as the code formats it;
    the floats of the metrics line are kept as values. *)
Inductive message : Type :=
| MsgNan
| MsgMetrics (epoch_isfinish : fval) (step : string) (avg_loss : fval)
    (steps_per_sec : fval)
| MsgSaved (path : string).

(** *** The gradient scaler

    [GradScaler()] with its defaults: enabled, initial scale 2^16, growth
    factor 2, backoff factor 1/2, growth interval 2000. *)
Record grad_scaler : Type := Scaler {
  s_enabled : bool;
  s_scale : Qc;
  s_growth_tracker : Z;
}.

Definition GradScaler : grad_scaler := Scaler true (Q2Qc 65536) 0.

(** [scaler.scale(loss)] *)
Definition scaler_scale (s : grad_scaler) (loss : fval) : fval :=
  if s_enabled s then fmul loss (FNum (s_scale s)) else loss.

(** [scaler.step(opt)] runs [opt.step()] unless the scaler is enabled and
    the unscaled gradients hold an inf or a NaN. *)
Definition scaler_steps (s : grad_scaler) (found_inf : bool) : bool :=
  if s_enabled s then negb found_inf else true.

(** [scaler.update()] *)
Definition scaler_update (s : grad_scaler) (found_inf : bool) : grad_scaler :=
  if s_enabled s then
    if found_inf then Scaler true (s_scale s * Q2Qc (1 # 2))%Qc 0
    else if s_growth_tracker s + 1 =? 2000
         then Scaler true (s_scale s * Q2Qc 2)%Qc 0
         else Scaler true (s_scale s) (s_growth_tracker s + 1)
  else s.

(** *** Process state and effects *)

Definition named_params : Type := list (string * EMA.tensor).

Inductive snapshot : Type :=
| ModelState (p : named_params)
| EmaState (p : gmap string EMA.tensor)
| OptState (steps : Z)
| ArgsValue (a : args).

Definition checkpoint : Type := list (string * snapshot).

(** What a process does to the world outside its own variables. *)
Inductive event : Type :=
| ZeroGrad
| Forward (autocast_enabled : bool)
| WandbLog (loss : fval)
| LogEmit (s : sink) (m : message)
| Backward (v : fval)
| OptimizerStep
| EmaUpdate
| CudaSynchronize
| TorchSave (path : string) (value : checkpoint).

(** The events of a non-skipped step that a skipped step must not have. *)
Definition training_effect (ev : event) : bool :=
  match ev with
  | Backward _ | OptimizerStep | EmaUpdate | TorchSave _ _ => true
  | _ => false
  end.

Record pstate : Type := PState {
  train_steps : Z;
  log_steps : Z;
  running_loss : fval;
  start_time : Qc;
  item : Z;
  scaler : grad_scaler;
  model : named_params;
  opt_steps : Z;
  ema : EMA.torch;
}.

(** What one iteration takes from outside the coordinator: the loss of the
    embedding the model returned, whether the gradients overflowed, the
    parameters an optimizer step leads to, and the two readings of the
    clock. *)
Record batch : Type := Batch {
  b_loss : fval;
  b_found_inf : bool;
  b_next_params : named_params;
  b_end_time : Qc;
  b_restart_time : Qc;
}.

(** A process returns, raises, acts on the outside, or waits in a
    collective operation. *)
Inductive proc (A : Type) : Type :=
| Ret (a : A)
| Raise (e : exn)
| Emit (ev : event) (k : proc A)
| AllReduce (v : fval) (k : fval -> proc A)
| Barrier (k : proc A).

Arguments Ret {A} a.
Arguments Raise {A} e.
Arguments Emit {A} ev k.
Arguments AllReduce {A} v k.
Arguments Barrier {A} k.

Fixpoint bind_proc {A B : Type} (p : proc A) (k : A -> proc B) : proc B :=
  match p with
  | Ret a => k a
  | Raise e => Raise e
  | Emit ev p' => Emit ev (bind_proc p' k)
  | AllReduce v f => AllReduce v (fun s => bind_proc (f s) k)
  | Barrier p' => Barrier (bind_proc p' k)
  end.

Local Notation "x <- m ;; k" := (bind_proc m (fun x => k))
  (at level 100, m at next level, right associativity, only parsing).

Definition lift {A : Type} (r : exn + A) : proc A :=
  match r with inl e => Raise e | inr a => Ret a end.

Fixpoint emit (evs : list event) : proc unit :=
  match evs with
  | [] => Ret tt
  | ev :: evs => Emit ev (emit evs)
  end.

(** *** The loop body (lines 111-167) *)

(** [logger.info(m)]: every handler of the logger writes the message. *)
Definition logger_info (c : ctx) (m : message) : proc unit :=
  emit ((fun s => LogEmit s m) <$> logger c).

(** Lines 140-153, entered when [train_steps % args.log_every == 0]. *)
Definition report (c : ctx) (b : batch) (st : pstate) : proc pstate :=
  _ <- emit [CudaSynchronize] ;;
  let end_time := b_end_time b in
  steps_per_sec <- lift (py_div (of_Z (log_steps st))
                           (FNum (end_time - start_time st)%Qc)) ;;
  per_rank <- lift (py_floordiv (global_batch_size (c_args c)) (world_size c)) ;;
  fraction <- lift (py_div (of_Z (per_rank * item st)) (of_Z (dataset_len c))) ;;
  let epoch_isfinish := fmul fraction (of_Z 100) in
  avg_loss <- lift (py_div (running_loss st) (of_Z (log_steps st))) ;;
  AllReduce avg_loss (fun avg_loss =>
  avg_loss <- lift (py_div avg_loss (of_Z (world_size c))) ;;
  _ <- logger_info c
         (MsgMetrics epoch_isfinish (format_0d 7 (train_steps st)) avg_loss
            steps_per_sec) ;;
  Ret (PState (train_steps st) 0 (of_Z 0) (b_restart_time b) (item st)
         (scaler st) (model st) (opt_steps st) (ema st))).

(** Lines 156-167, entered when
    [train_steps % args.ckpt_every == 0 and train_steps > 0]. *)
Definition save_checkpoint (c : ctx) (st : pstate) : proc pstate :=
  _ <- (if rank c =? 0 then
          let checkpoint :=
            [("model", ModelState (model st));
             ("ema", EmaState (EMA.params (ema st)));
             ("opt", OptState (opt_steps st));
             ("args", ArgsValue (c_args c))] in
          let checkpoint_path := checkpoint_path c (train_steps st) in
          _ <- emit [TorchSave checkpoint_path checkpoint] ;;
          if rank c =? 0 then logger_info c (MsgSaved checkpoint_path)
          else Ret tt
        else Ret tt) ;;
  Barrier (Ret st).

(** Lines 130-133: scale, backward, optimizer step, scaler update, EMA
    update. *)
Definition train_step (b : batch) (st : pstate) : proc pstate :=
  _ <- emit [Backward (scaler_scale (scaler st) (b_loss b))] ;;
  st <- (if scaler_steps (scaler st) (b_found_inf b)
         then _ <- emit [OptimizerStep] ;;
              Ret (PState (train_steps st) (log_steps st) (running_loss st)
                     (start_time st) (item st) (scaler st) (b_next_params b)
                     (opt_steps st + 1) (ema st))
         else Ret st) ;;
  let st :=
    PState (train_steps st) (log_steps st) (running_loss st) (start_time st)
      (item st) (scaler_update (scaler st) (b_found_inf b)) (model st)
      (opt_steps st) (ema st) in
  _ <- emit [EmaUpdate] ;;
  match EMA.update_ema (model st) EMA.default_decay (ema st) with
  | (_, inl e) => Raise e
  | (ema', inr _) =>
      Ret (PState (train_steps st) (log_steps st) (running_loss st)
             (start_time st) (item st) (scaler st) (model st) (opt_steps st)
             ema')
  end.

(** Lines 136-138. *)
Definition count_step (b : batch) (st : pstate) : pstate :=
  PState (train_steps st + 1) (log_steps st + 1)
    (fadd (running_loss st) (b_loss b)) (start_time st) (item st) (scaler st)
    (model st) (opt_steps st) (ema st).

(** Lines 136-167: count the step, then report and checkpoint when due. *)
Definition finish (c : ctx) (b : batch) (st : pstate) : proc pstate :=
  let st := count_step b st in
  r <- lift (py_mod (train_steps st) (log_every (c_args c))) ;;
  st <- (if r =? 0 then report c b st else Ret st) ;;
  r <- lift (py_mod (train_steps st) (ckpt_every (c_args c))) ;;
  if (r =? 0) && (train_steps st >? 0) then save_checkpoint c st
  else Ret st.

Definition body (c : ctx) (b : batch) (st : pstate) : proc pstate :=
  let st :=
    PState (train_steps st) (log_steps st) (running_loss st) (start_time st)
      (item st + 1) (scaler st) (model st) (opt_steps st) (ema st) in
  _ <- emit [ZeroGrad] ;;
  _ <- emit [Forward (autocast (c_args c))] ;;
  let loss := b_loss b in
  _ <- (if (rank c =? 0) && wandb (c_args c) then emit [WandbLog loss]
        else Ret tt) ;;
  if isnan loss then
    _ <- logger_info c MsgNan ;;
    Ret st
  else
    st <- train_step b st ;;
    finish c b st.

(** Lines 53 and 96-99: the state before the first batch, for a model and
    its EMA copy. *)
Definition initial_state (m : named_params) (e : EMA.torch) (now : Qc) : pstate :=
  PState 0 0 (of_Z 0) now 0 GradScaler m 0 e.

(** *** Running processes *)

(** One process on its own: the all-reduce returns what [reduce] says and
    the barrier returns.  The result comes with the events in order. *)
Fixpoint run_with {A : Type} (reduce : fval -> fval) (p : proc A)
    : list event * (exn + A) :=
  match p with
  | Ret a => ([], inr a)
  | Raise e => ([], inl e)
  | Emit ev k => let '(evs, r) := run_with reduce k in (ev :: evs, r)
  | AllReduce v k => run_with reduce (k (reduce v))
  | Barrier k => run_with reduce k
  end.

(** A process up to its next collective operation or its end. *)
Fixpoint advance {A : Type} (p : proc A) : list event * proc A :=
  match p with
  | Emit ev k => let '(evs, p') := advance k in (ev :: evs, p')
  | _ => ([], p)
  end.

Definition contribution {A : Type} (p : proc A) : option fval :=
  match p with AllReduce v _ => Some v | _ => None end.

Definition at_barrier {A : Type} (p : proc A) : option (proc A) :=
  match p with Barrier k => Some k | _ => None end.

Definition finished {A : Type} (p : proc A) : option (exn + A) :=
  match p with Ret a => Some (inr a) | Raise e => Some (inl e) | _ => None end.

Definition resume {A : Type} (total : fval) (p : proc A) : proc A :=
  match p with AllReduce _ k => k total | _ => p end.

(** The processes of a group end with their events and results, or some of
    them wait in a collective operation that the others do not enter. *)
Inductive outcome (A : Type) : Type :=
| Finished (results : list (list event * (exn + A)))
| Hung.

Arguments Finished {A} results.
Arguments Hung {A}.

Definition advance_all {A : Type} (ps : list (list event * proc A))
    : list (list event * proc A) :=
  (fun '(evs, p) => let '(evs', p') := advance p in (evs ++ evs', p')) <$> ps.

Definition with_events {A B : Type} (f : proc A -> option B)
    (x : list event * proc A) : option (list event * B) :=
  r ← f x.2; Some (x.1, r).

(** All processes of the group together.  A collective completes when every
    process is in it: the all-reduce hands the sum of the contributions to
    each process, the barrier releases them. *)
Fixpoint run_world {A : Type} (fuel : nat) (ps : list (list event * proc A))
    : outcome A :=
  let ps := advance_all ps in
  match mapM (with_events finished) ps with
  | Some results => Finished results
  | None =>
      match fuel with
      | O => Hung
      | S fuel =>
          match mapM (fun x => contribution x.2) ps with
          | Some vs =>
              run_world fuel ((fun x => (x.1, resume (fsum vs) x.2)) <$> ps)
          | None =>
              match mapM (with_events at_barrier) ps with
              | Some ks => run_world fuel ks
              | None => Hung
              end
          end
      end
  end.

(** The processes of a group of [length inputs] members, rank [i] working
    on the [i]-th input. *)
Definition group_ctx (a : args) (index len : Z) (n : nat) (i : nat) : ctx :=
  Ctx a (Z.of_nat i) (Z.of_nat n) index len.

Definition group {I A : Type} (a : args) (index len : Z)
    (f : ctx -> I -> proc A) (inputs : list I) : list (list event * proc A) :=
  imap (fun i x => ([], f (group_ctx a index len (length inputs) i) x)) inputs.

(** The loop of one process over a list of batches. *)
Fixpoint run_batches (reduce : fval -> fval) (c : ctx) (bs : list batch)
    (st : pstate) : list event * (exn + pstate) :=
  match bs with
  | [] => ([], inr st)
  | b :: bs =>
      match run_with reduce (body c b st) with
      | (evs, inl e) => (evs, inl e)
      | (evs, inr st) =>
          let '(evs', r) := run_batches reduce c bs st in (evs ++ evs', r)
      end
  end.

(** The checkpoints a trace holds. *)
Definition saves (evs : list event) : list (string * checkpoint) :=
  omap (fun e => match e with TorchSave p v => Some (p, v) | _ => None end) evs.

(** The values [backward] was called on. *)
Definition backward_values (evs : list event) : list fval :=
  omap (fun e => match e with Backward v => Some v | _ => None end) evs.

(** The quotient of two floats for a divisor that is not zero. *)
Definition fdiv (a b : fval) : fval :=
  match a, b with
  | FNum x, FNum y => FNum (x / y)%Qc
  | _, _ => FNaN
  end.

(** The sinks on which a trace shows the metrics line. *)
Definition metrics_sinks (evs : list event) : list sink :=
  omap (fun e => match e with
                 | LogEmit s (MsgMetrics _ _ _ _) => Some s
                 | _ => None
                 end) evs.

(** The averaged losses a trace reports. *)
Definition reported_losses (evs : list event) : list fval :=
  omap (fun e => match e with
                 | LogEmit Stderr (MsgMetrics _ _ avg _) => Some avg
                 | _ => None
                 end) evs.

(** *** Stages and outcomes of an iteration *)

(** The state after a skipped step: only the index of the batch within the
    epoch has advanced. *)
Definition skipped (st : pstate) : pstate :=
  PState (train_steps st) (log_steps st) (running_loss st) (start_time st)
    (item st + 1) (scaler st) (model st) (opt_steps st) (ema st).

(** Events without a training effect. *)
Definition quiet (evs : list event) : Prop :=
  Forall (fun ev => training_effect ev = false) evs.

(** The dictionary of lines 157-162. *)
Definition checkpoint_value (c : ctx) (st : pstate) : checkpoint :=
  [("model", ModelState (model st));
   ("ema", EmaState (EMA.params (ema st)));
   ("opt", OptState (opt_steps st));
   ("args", ArgsValue (c_args c))].

(** The events of lines 130-133. *)
Definition step_events (b : batch) (st : pstate) : list event :=
  Backward (scaler_scale (scaler st) (b_loss b))
  :: (if scaler_steps (scaler st) (b_found_inf b) then [OptimizerStep] else [])
  ++ [EmaUpdate].

(** The events of lines 117-124. *)
Definition step_prefix (c : ctx) (b : batch) : list event :=
  [ZeroGrad; Forward (autocast (c_args c))]
  ++ (if (rank c =? 0) && wandb (c_args c) then [WandbLog (b_loss b)] else []).

(** The checkpoint condition of line 155 on the counter [n]. *)
Definition due (every n : Z) : bool := (n mod every =? 0) && (n >? 0).

(** The values of a report when no division raises: the mean loss of the
    window, the steps per second, and the percentage of the epoch. *)
Definition window_mean (st : pstate) : fval :=
  fdiv (running_loss st) (of_Z (log_steps st)).

Definition throughput (b : batch) (st : pstate) : fval :=
  fdiv (of_Z (log_steps st)) (FNum (b_end_time b - start_time st)%Qc).

Definition epoch_percent (c : ctx) (st : pstate) : fval :=
  fmul (fdiv (of_Z (global_batch_size (c_args c) / world_size c * item st))
          (of_Z (dataset_len c)))
    (of_Z 100).

(** The state after a report. *)
Definition reported (b : batch) (st : pstate) : pstate :=
  PState (train_steps st) 0 (of_Z 0) (b_restart_time b) (item st) (scaler st)
    (model st) (opt_steps st) (ema st).

(** The metrics line of a process when the all-reduce returns [total]. *)
Definition metrics_line (c : ctx) (b : batch) (st : pstate) (total : fval)
    : message :=
  MsgMetrics (epoch_percent c st) (format_0d 7 (train_steps st))
    (fdiv total (of_Z (world_size c))) (throughput b st).

(** A report after its all-reduce returned [total], when the division by the
    world size does not raise; and as the code has it. *)
Definition report_rest (c : ctx) (b : batch) (st : pstate) (total : fval)
    : proc pstate :=
  bind_proc (emit ((fun s => LogEmit s (metrics_line c b st total)) <$> logger c))
    (fun _ => Ret (reported b st)).

Definition report_cont (c : ctx) (b : batch) (st : pstate) : fval -> proc pstate :=
  fun avg_loss =>
    bind_proc (lift (py_div avg_loss (of_Z (world_size c)))) (fun avg_loss =>
    bind_proc (logger_info c
                 (MsgMetrics (epoch_percent c st) (format_0d 7 (train_steps st))
                    avg_loss (throughput b st)))
      (fun _ => Ret (reported b st))).

(** The sum over the group of the window means. *)
Definition global_sum (inputs : list (batch * pstate)) : fval :=
  fsum ((fun x => window_mean x.2) <$> inputs).

(** *** Sample runs *)

Definition sample_args : args := Args "results_ct" 100 32 10 10 false false.
Definition sample_model : named_params := [("w", [1%Qc])].
Definition sample_ema : EMA.torch := EMA.Torch (<["w" := [0%Qc]]> ∅) true [].
Definition sample_ctx : ctx := Ctx sample_args 0 1 0 100.
Definition sample_batch : batch :=
  Batch (of_Z 1) false sample_model 1%Qc (Q2Qc 2).
Definition nan_batch : batch := Batch FNaN false sample_model 1%Qc (Q2Qc 2).
Definition overflow_batch : batch :=
  Batch (of_Z 1) true sample_model 1%Qc (Q2Qc 2).
Definition sample_state : pstate := initial_state sample_model sample_ema 0%Qc.

(** A process after nine steps, and a process at a report with two steps
    and a loss sum in its window. *)
Definition before_tenth : pstate :=
  PState 9 9 (of_Z 9) 0%Qc 9 GradScaler sample_model 9 sample_ema.
Definition window_state (loss_sum : Z) : pstate :=
  PState 10 2 (of_Z loss_sum) 0%Qc 3 GradScaler sample_model 10 sample_ema.
Definition four_windows : list (batch * pstate) :=
  [(sample_batch, window_state 2); (sample_batch, window_state 4);
   (sample_batch, window_state 6); (sample_batch, window_state 8)].
Definition two_windows : list (batch * pstate) :=
  [(sample_batch, window_state 2); (sample_batch, window_state 4)].

(** *** Runs, and names for their intermediate states *)

(** The counters after the step is counted. *)
Definition counted (c : ctx) (b : batch) (st1 : pstate) : pstate :=
  if (train_steps st1 + 1) mod log_every (c_args c) =? 0
  then reported b (count_step b st1)
  else count_step b st1.

(** The batches whose loss is a number. *)
Definition counted_batches (bs : list batch) : list batch :=
  filter (fun b => isnan (b_loss b) = false) bs.

(** What the loop keeps between iterations: the window holds as many steps
    as the step counter has gone past the last multiple of [log_every], and
    its loss sum is a number. *)
Definition window_ok (c : ctx) (st : pstate) : Prop :=
  log_steps st = train_steps st mod log_every (c_args c)
  /\ isnan (running_loss st) = false.

(** The model after [scaler.step(opt)] and the state after line 133 when the
    EMA update returns [ema']. *)
Definition stepped_model (b : batch) (st : pstate) : named_params :=
  if scaler_steps (scaler st) (b_found_inf b) then b_next_params b
  else model st.

Definition trained (b : batch) (st : pstate) (ema' : EMA.torch) : pstate :=
  PState (train_steps st) (log_steps st) (running_loss st) (start_time st)
    (item st) (scaler_update (scaler st) (b_found_inf b)) (stepped_model b st)
    (if scaler_steps (scaler st) (b_found_inf b) then opt_steps st + 1
     else opt_steps st)
    ema'.

(** [int(s)] on a string of decimal digits. *)
Definition read_digits (s : string) : option Z :=
  match NilEmpty.uint_of_string s with
  | Some d => Some (Z.of_N (N.of_uint d))
  | None => None
  end.

(** Further sample runs: three batches with a skipped one in the middle, two
    ranks of which the first sees a NaN loss at a report step, and a
    configuration whose reporting interval is zero. *)
Definition three_batches : list batch := [sample_batch; nan_batch; sample_batch].
Definition zero_log_ctx : ctx :=
  Ctx (Args "results_ct" 100 32 0 10 false false) 0 1 0 100.

End Coordinator.

(** ** Command-line entry point (lines 51-94 and 172-188) *)

Module Cli.
Import Py.

Local Open Scope Z_scope.

Inductive value : Type :=
| VStr (s : string)
| VInt (z : Z)
| VBool (b : bool).

(** What an argument accepts: a string or an integer, possibly among given
    choices, or nothing (a flag that stores [True]). *)
Inductive kind : Type :=
| KStr (choices : option (list string))
| KInt (choices : option (list Z))
| KStoreTrue.

Record argument : Type := Argument {
  flag : string;
  arg_kind : kind;
  default : value;
}.

(** Lines 175-186. *)
Definition parser : list argument :=
  [Argument "--results-dir" (KStr None) (VStr "results_ct");
   Argument "--image-size" (KInt (Some [224; 256; 512])) (VInt 224);
   Argument "--epochs" (KInt None) (VInt 100);
   Argument "--global-batch-size" (KInt None) (VInt 32);
   Argument "--global-seed" (KInt None) (VInt 0);
   Argument "--num-workers" (KInt None) (VInt 4);
   Argument "--log-every" (KInt None) (VInt 10);
   Argument "--vae" (KStr (Some ["ema"; "mse"])) (VStr "ema");
   Argument "--ckpt-every" (KInt None) (VInt 6000);
   Argument "--wandb" KStoreTrue (VBool false);
   Argument "--embed-dim" (KInt None) (VInt 512);
   Argument "--autocast" KStoreTrue (VBool false)].

(** The attribute an option is stored under: the option string without its
    leading dashes, the other dashes turned into underscores. *)
Fixpoint dashes_to_underscores (s : string) : string :=
  match s with
  | EmptyString => EmptyString
  | String a s =>
      String (if Ascii.eqb a "-" then "_"%char else a) (dashes_to_underscores s)
  end.

Fixpoint strip_dashes (s : string) : string :=
  match s with
  | String a s' => if Ascii.eqb a "-" then strip_dashes s' else s
  | EmptyString => EmptyString
  end.

Definition dest (a : argument) : string :=
  dashes_to_underscores (strip_dashes (flag a)).

Abbreviation namespace := (gmap string value).

Definition admits (k : kind) (v : value) : bool :=
  match k, v with
  | KStr None, VStr _ => true
  | KStr (Some cs), VStr s => bool_decide (s ∈ cs)
  | KInt None, VInt _ => true
  | KInt (Some cs), VInt z => bool_decide (z ∈ cs)
  | KStoreTrue, VBool _ => true
  | _, _ => false
  end.

(** What [parser.parse_args()] returns when it returns: a namespace with one
    attribute for every argument of the parser and no other, each holding a
    value its argument admits. *)
Definition parsed (p : list argument) (ns : namespace) : Prop :=
  dom ns = list_to_set (dest <$> p)
  /\ Forall (fun a => exists v, ns !! dest a = Some v
                               /\ admits (arg_kind a) v = true) p.

(** The namespace of an empty command line. *)
Definition defaults (p : list argument) : namespace :=
  list_to_map ((fun a => (dest a, default a)) <$> p).

(** [args.name] *)
Definition getattr (ns : namespace) (name : string) : exn + value :=
  match ns !! name with
  | Some v => inr v
  | None => inl (AttributeError name)
  end.

(** The calls of [main] into the libraries that may fail for reasons of
    their own. *)
Inductive call : Type :=
| SetDevice
| WandbInit
| Makedirs
| BuildModel
| WrapModel
| LoadVae
| BuildOptimizer
| BuildDataset
| BuildLoader.

(** Where the process runs. *)
Record env : Type := Env {
  cuda_available : bool;
  get_rank : exn + Z;
  device_count : Z;
  fails : call -> option exn;
}.

Definition M (A : Type) : Type := exn + A.

Definition bind {A B : Type} (m : M A) (k : A -> M B) : M B :=
  match m with inl e => inl e | inr a => k a end.

Local Notation "x <- m ;; k" := (bind m (fun x => k))
  (at level 100, m at next level, right associativity, only parsing).

Definition assert (b : bool) (msg : string) : M unit :=
  if b then inr tt else inl (AssertionError msg).

Definition external (ev : env) (c : call) : M unit :=
  match fails ev c with Some e => inl e | None => inr tt end.

Definition as_int (v : value) : M Z :=
  match v with VInt z => inr z | VBool b => inr (if b then 1 else 0)
  | VStr _ => inl TypeError end.

Definition truthy (v : value) : bool :=
  match v with
  | VBool b => b
  | VInt z => negb (z =? 0)
  | VStr s => negb (String.eqb s "")
  end.

(** The outcome of [main] short of an exception: the training loop is
    entered. *)
Inductive progress : Type :=
| TrainingLoop.

(** Lines 52-103 of [main], up to the first iteration. *)
Definition main (ns : namespace) (ev : env) : M progress :=
  _ <- assert (cuda_available ev)
         "Training currently requires at least one GPU." ;;
  seed <- getattr ns "global_seed" ;;
  rank <- get_rank ev ;;
  device <- (if device_count ev =? 0 then inl ZeroDivisionError
             else inr (rank mod device_count ev)) ;;
  _ <- external ev SetDevice ;;
  _ <- (if rank =? 0 then
          wandb <- getattr ns "wandb" ;;
          _ <- (if truthy wandb then
                  _ <- external ev WandbInit ;;
                  _ <- getattr ns "epochs" ;;
                  _ <- getattr ns "global_batch_size" ;;
                  inr tt
                else inr tt) ;;
          _ <- getattr ns "results_dir" ;;
          _ <- external ev Makedirs ;;
          _ <- getattr ns "results_dir" ;;
          _ <- getattr ns "results_dir" ;;
          _ <- external ev Makedirs ;;
          inr tt
        else inr tt) ;;
  image_size <- getattr ns "image_size" ;;
  image_size <- as_int image_size ;;
  _ <- assert (image_size mod 8 =? 0)
         "Image size must be divisible by 8 (for the VAE encoder)." ;;
  _ <- getattr ns "embed_dim" ;;
  _ <- external ev BuildModel ;;
  _ <- external ev WrapModel ;;
  _ <- getattr ns "vae" ;;
  _ <- external ev LoadVae ;;
  _ <- external ev BuildOptimizer ;;
  _ <- getattr ns "ct_image_folder_train" ;;
  _ <- getattr ns "mask_image_folder_train" ;;
  _ <- getattr ns "mir_image_folder_train" ;;
  _ <- external ev BuildDataset ;;
  _ <- getattr ns "global_batch_size" ;;
  _ <- getattr ns "num_workers" ;;
  _ <- external ev BuildLoader ;;
  _ <- (if rank =? 0 then _ <- getattr ns "epochs" ;; inr tt else inr tt) ;;
  _ <- getattr ns "epochs" ;;
  inr TrainingLoop.

(** Proof steps: a membership decided by computation, and a case analysis
    on the first computation of a sequence. *)
Ltac in_parser := apply (bool_decide_unpack _); vm_compute; exact I.

Ltac run_step :=
  match goal with
  | |- context [bind ?m _] =>
      match m with
      | bind _ _ => fail 1
      | _ => destruct m as [?e|?a] eqn:?; cbn [bind]
      end
  end.

(** A machine on which every step before the dataset succeeds, and one
    without a GPU. *)
Definition healthy_env : env := Env true (inr 0) 1 (fun _ => None).
Definition no_gpu_env : env := Env false (inr 0) 0 (fun _ => None).

(** The namespace with the three folders of the dataset added. *)
Definition with_folders (ct mask mir : value) (ns : namespace) : namespace :=
  <["ct_image_folder_train" := ct]>
    (<["mask_image_folder_train" := mask]>
       (<["mir_image_folder_train" := mir]> ns)).

(** A machine of rank 1, and the failure of the directory creation. *)
Definition rank_1_env : env := Env true (inr 1) 1 (fun _ => None).
Definition makedirs_fails (c : call) : option exn :=
  match c with Makedirs => Some OSError | _ => None end.

End Cli.

(** * Properties *)

(** ** Loss engine *)

Module LossEngineProofs.
Import LossEngine.
Local Open Scope R_scope.

(** *** Sums, norms and rows *)

Lemma rsum_map_scal (c : R) (l : list R) :
  rsum (map (Rmult c) l) = c * rsum l.
Proof.
  induction l as [|a l IH]; simpl.
  - lra.
  - rewrite IH. lra.
Qed.

Lemma rsum_nonneg (l : list R) : Forall (fun a => 0 <= a) l -> 0 <= rsum l.
Proof.
  induction 1 as [|a l Ha _ IH]; simpl; lra.
Qed.

Lemma rsum_exp_pos (l : list R) : l <> [] -> 0 < rsum (map exp l).
Proof.
  destruct l as [|a l]; [congruence|intros _]. simpl.
  assert (0 <= rsum (map exp l)).
  { apply rsum_nonneg, List.Forall_forall. intros y Hy.
    apply in_map_iff in Hy as (z & <- & _).
    left. apply exp_pos. }
  pose proof (exp_pos a). lra.
Qed.

Lemma squares_as_dot (v : list R) :
  map (fun x => Rabs x ^ 2) v = zip_with Rmult v v.
Proof.
  induction v as [|a v IH]; [reflexivity|].
  cbn [map zip_with]. f_equal; [|exact IH].
  rewrite <- Rsqr_pow2, <- Rsqr_abs. reflexivity.
Qed.

Lemma vector_norm_l2 (v : list R) : vector_norm v = Spec.l2_norm v.
Proof.
  unfold vector_norm, Spec.l2_norm, dot. now rewrite squares_as_dot.
Qed.

Lemma sum_squares_nonneg (v : list R) : 0 <= rsum (map (fun x => Rabs x ^ 2) v).
Proof.
  apply rsum_nonneg, List.Forall_forall. intros y Hy.
  apply in_map_iff in Hy as (z & <- & _).
  apply pow2_ge_0.
Qed.

Lemma vector_norm_scale (c : R) (v : list R) :
  0 < c -> vector_norm (map (Rmult c) v) = c * vector_norm v.
Proof.
  intros Hc. unfold vector_norm.
  rewrite map_map.
  replace (map (fun x => Rabs (c * x) ^ 2) v)
    with (map (Rmult (c ^ 2)) (map (fun x => Rabs x ^ 2) v)).
  - rewrite rsum_map_scal, sqrt_mult.
    + f_equal. rewrite <- Rsqr_pow2. apply sqrt_Rsqr. lra.
    + apply pow2_ge_0.
    + apply sum_squares_nonneg.
  - rewrite map_map. apply map_ext. intros x.
    rewrite Rabs_mult, (Rabs_right c) by lra. ring.
Qed.

Lemma normalize_eps_pos : 0 < normalize_eps.
Proof. unfold normalize_eps. apply Rinv_0_lt_compat, pow_lt. lra. Qed.

Lemma normalize_eps_val : normalize_eps = / 1000000000000.
Proof. unfold normalize_eps. f_equal. lra. Qed.

(** Rows at least [eps] long are divided by their own length. *)
Lemma normalize_long_rows (m : matrix) :
  Forall (fun v => normalize_eps <= vector_norm v) m ->
  normalize m = map Spec.l2_normalize m.
Proof.
  intros H. unfold normalize. apply map_ext_in. intros v Hv.
  rewrite List.Forall_forall in H. specialize (H v Hv).
  unfold Spec.l2_normalize. rewrite Rmax_left by lra.
  now rewrite vector_norm_l2.
Qed.

Lemma reshape_scale (c : R) (x : tensor3) :
  reshape (scale c x) = map (map (Rmult c)) (reshape x).
Proof.
  unfold reshape, scale. rewrite !map_map. apply map_ext. intros s.
  now rewrite concat_map.
Qed.

Lemma normalize_scale (c : R) (m : matrix) :
  0 < c ->
  Forall (fun v => normalize_eps <= vector_norm v
                   /\ normalize_eps <= c * vector_norm v) m ->
  normalize (map (map (Rmult c)) m) = normalize m.
Proof.
  intros Hc H. unfold normalize. rewrite map_map. apply map_ext_in.
  intros v Hv. rewrite List.Forall_forall in H. destruct (H v Hv) as [H1 H2].
  pose proof normalize_eps_pos as He.
  rewrite vector_norm_scale by assumption.
  rewrite !Rmax_left by lra.
  rewrite map_map. apply map_ext. intros a. field. split; lra.
Qed.

(** *** Indexing a list by [arange] *)

Lemma zip_with_seq {A B : Type} (g : A -> nat -> B) (d : A) (l : list A) (a : nat) :
  zip_with g l (seq a (length l))
  = map (fun i => g (nth (i - a) l d) i) (seq a (length l)).
Proof.
  revert a. induction l as [|x l IH]; intros a; [reflexivity|].
  cbn [length seq zip_with map]. f_equal.
  - now rewrite Nat.sub_diag.
  - rewrite IH. apply map_ext_in. intros i Hi. apply in_seq in Hi.
    replace (i - a)%nat with (S (i - S a)) by lia. reflexivity.
Qed.

Lemma map_as_seq {A B : Type} (f : A -> B) (d : A) (l : list A) :
  map f l = map (fun j => f (nth j l d)) (seq 0 (length l)).
Proof.
  assert (Hz : forall a, map f l = zip_with (fun x _ => f x) l (seq a (length l))).
  { induction l as [|x l IH]; intros a; [reflexivity|].
    cbn [length seq zip_with map]. now rewrite <- IH. }
  rewrite (Hz 0%nat), (zip_with_seq _ d). apply map_ext. intros i.
  now rewrite Nat.sub_0_r.
Qed.

(** *** Cross-entropy of one row *)

Lemma rsum_map_exp_pos {A : Type} (f : A -> R) (l : list A) :
  l <> [] -> 0 < rsum (map (fun j => exp (f j)) l).
Proof.
  intros Hl. rewrite <- (map_map f exp). apply rsum_exp_pos.
  destruct l; [congruence|discriminate].
Qed.

Lemma nll_row (f : nat -> R) (B i : nat) :
  (i < B)%nat ->
  nll (map f (seq 0 B)) i
  = - ln (exp (f i) / rsum (map (fun j => exp (f j)) (seq 0 B))).
Proof.
  intros Hi. unfold nll, log_softmax. rewrite !map_map.
  set (Z := rsum (map (fun j => exp (f j)) (seq 0 B))).
  assert (HZ : 0 < Z).
  { apply rsum_map_exp_pos. destruct B; [lia|discriminate]. }
  rewrite (nth_indep _ 0 ((fun j => f j - ln Z) 0%nat))
    by (rewrite length_map, length_seq; exact Hi).
  rewrite (map_nth (fun j => f j - ln Z)), seq_nth by exact Hi.
  unfold Rdiv at 1.
  rewrite ln_mult by (apply exp_pos || apply Rinv_0_lt_compat, HZ).
  rewrite ln_Rinv by exact HZ. rewrite ln_exp. reflexivity.
Qed.

(** Row [i] of the similarity matrix the code builds. *)
Lemma sim_row (n : matrix) (tau : R) (i : nat) :
  (i < length n)%nat ->
  nth i (map (map (fun s => s / tau)) (matmul_T n n)) []
  = map (fun j => dot (nth i n []) (nth j n []) / tau) (seq 0 (length n)).
Proof.
  intros Hi. unfold matmul_T. rewrite map_map.
  rewrite (nth_indep _ [] ((fun u => map (fun s => s / tau)
                                      (map (fun v => dot u v) n)) []))
    by (rewrite length_map; exact Hi).
  rewrite (map_nth (fun u => map (fun s => s / tau) (map (fun v => dot u v) n))).
  rewrite map_map. apply (map_as_seq (fun v => dot (nth i n []) v / tau)).
Qed.

Lemma cross_entropy_arange (n : matrix) (tau : R) :
  cross_entropy (map (map (fun s => s / tau)) (matmul_T n n)) (arange (length n))
  = rsum (map (fun i =>
        - ln (exp (dot (nth i n []) (nth i n []) / tau)
              / rsum (map (fun j => exp (dot (nth i n []) (nth j n []) / tau))
                          (seq 0 (length n)))))
      (seq 0 (length n)))
    / INR (length n).
Proof.
  unfold cross_entropy, arange, matmul_T.
  rewrite !length_map. f_equal. f_equal.
  set (sim := map _ (map _ n)).
  assert (Hlen : length sim = length n) by (unfold sim; now rewrite !length_map).
  rewrite <- Hlen at 1. rewrite (zip_with_seq nll []). rewrite Hlen.
  apply map_ext_in. intros i Hi. apply in_seq in Hi.
  rewrite Nat.sub_0_r. unfold sim.
  change (map (fun u => map (fun v => dot u v) n) n) with (matmul_T n n).
  rewrite sim_row by lia.
  apply (nll_row (fun j => dot (nth i n []) (nth j n []) / tau)). lia.
Qed.

(** On rows at least [eps] long the code computes the specification's loss. *)
Lemma loss_on_long_rows (x : tensor3) :
  Forall (fun v => normalize_eps <= vector_norm v) (reshape x) ->
  infoNCE_loss_b x default_tau = Spec.loss x.
Proof.
  intros H. unfold infoNCE_loss_b.
  rewrite (normalize_long_rows _ H), cross_entropy_arange.
  unfold Spec.loss, Spec.softmax_prob, Spec.similarity, Spec.rows, reshape.
  rewrite !length_map.
  assert (Hn : forall i, nth i (map Spec.l2_normalize (map (@concat R) x)) []
                         = Spec.l2_normalize (nth i (map (@concat R) x) [])).
  { intros i. exact (map_nth Spec.l2_normalize (map (@concat R) x) [] i). }
  f_equal. f_equal. apply map_ext. intros i.
  rewrite !Hn. f_equal. f_equal. f_equal.
  - f_equal. unfold default_tau. field.
  - f_equal. apply map_ext. intros j. rewrite Hn. f_equal.
    unfold default_tau. field.
Qed.

(** The loss does not change when every row stays at least [eps] long. *)
Lemma loss_scale_long_rows (x : tensor3) (c tau : R) :
  0 < c ->
  Forall (fun v => normalize_eps <= vector_norm v
                   /\ normalize_eps <= c * vector_norm v) (reshape x) ->
  infoNCE_loss_b (scale c x) tau = infoNCE_loss_b x tau.
Proof.
  intros Hc H. unfold infoNCE_loss_b.
  now rewrite reshape_scale, (normalize_scale c _ Hc H).
Qed.

(** *** Two orthogonal rows *)

Lemma vector_norm_axis_l (a : R) : 0 <= a -> vector_norm [a; 0] = a.
Proof.
  intros Ha. unfold vector_norm. cbn [map rsum foldr].
  replace (Rabs a ^ 2 + (Rabs 0 ^ 2 + 0)) with (Rsqr a).
  - now apply sqrt_Rsqr.
  - rewrite Rabs_R0, (Rabs_right a) by lra. unfold Rsqr. ring.
Qed.

Lemma vector_norm_axis_r (b : R) : 0 <= b -> vector_norm [0; b] = b.
Proof.
  intros Hb. unfold vector_norm. cbn [map rsum foldr].
  replace (Rabs 0 ^ 2 + (Rabs b ^ 2 + 0)) with (Rsqr b).
  - now apply sqrt_Rsqr.
  - rewrite Rabs_R0, (Rabs_right b) by lra. unfold Rsqr. ring.
Qed.

Lemma loss_axes (a b tau : R) :
  0 <= a -> 0 <= b ->
  infoNCE_loss_b [[[a; 0]]; [[0; b]]] tau
  = (own_term ((a / Rmax a normalize_eps) * (a / Rmax a normalize_eps) / tau)
     + own_term ((b / Rmax b normalize_eps) * (b / Rmax b normalize_eps) / tau)) / 2.
Proof.
  intros Ha Hb. unfold infoNCE_loss_b. rewrite cross_entropy_arange.
  unfold reshape, normalize. cbn [map concat app length seq nth rsum foldr].
  rewrite (vector_norm_axis_l a Ha), (vector_norm_axis_r b Hb).
  unfold dot. cbn [zip_with rsum foldr].
  replace (0 / Rmax a normalize_eps) with 0 by (unfold Rdiv; ring).
  replace (0 / Rmax b normalize_eps) with 0 by (unfold Rdiv; ring).
  set (P := a / Rmax a normalize_eps). set (Q := b / Rmax b normalize_eps).
  replace ((P * P + (0 * 0 + 0)) / tau) with (P * P / tau) by (unfold Rdiv; ring).
  replace ((0 * 0 + (Q * Q + 0)) / tau) with (Q * Q / tau) by (unfold Rdiv; ring).
  replace ((P * 0 + (0 * Q + 0)) / tau) with 0 by (unfold Rdiv; ring).
  replace ((0 * P + (Q * 0 + 0)) / tau) with 0 by (unfold Rdiv; ring).
  rewrite exp_0. unfold own_term. cbn [INR].
  replace (1 + (exp (Q * Q / tau) + 0)) with (exp (Q * Q / tau) + 1) by ring.
  replace (exp (P * P / tau) + (1 + 0)) with (exp (P * P / tau) + 1) by ring.
  lra.
Qed.

Lemma own_term_inj (s t : R) : own_term s = own_term t -> s = t.
Proof.
  unfold own_term. intros H. apply Ropp_eq_compat in H. rewrite !Ropp_involutive in H.
  pose proof (exp_pos s) as Hs. pose proof (exp_pos t) as Ht.
  assert (Hs' : 0 < exp s / (exp s + 1)) by (apply Rdiv_lt_0_compat; lra).
  assert (Ht' : 0 < exp t / (exp t + 1)) by (apply Rdiv_lt_0_compat; lra).
  apply ln_inv in H; try assumption.
  apply exp_inv.
  apply (f_equal (fun r => r * (exp s + 1) * (exp t + 1))) in H.
  field_simplify in H; lra.
Qed.

Lemma spec_loss_axes (a b : R) :
  0 < a -> 0 < b ->
  Spec.loss [[[a; 0]]; [[0; b]]] = own_term (100 / 7).
Proof.
  intros Ha Hb.
  unfold Spec.loss, Spec.softmax_prob, Spec.similarity, Spec.rows.
  cbn [map concat app length seq nth rsum foldr].
  unfold Spec.l2_normalize. rewrite <- !vector_norm_l2.
  rewrite (vector_norm_axis_l a), (vector_norm_axis_r b) by lra.
  unfold dot. cbn [map zip_with rsum foldr].
  replace (a / a) with 1 by (field; lra). replace (b / b) with 1 by (field; lra).
  replace (0 / a) with 0 by (unfold Rdiv; ring).
  replace (0 / b) with 0 by (unfold Rdiv; ring).
  replace ((1 * 1 + (0 * 0 + 0)) * (1 / (7 / 100))) with (100 / 7) by field.
  replace ((0 * 0 + (1 * 1 + 0)) * (1 / (7 / 100))) with (100 / 7) by field.
  replace ((1 * 0 + (0 * 1 + 0)) * (1 / (7 / 100))) with 0 by field.
  replace ((0 * 1 + (1 * 0 + 0)) * (1 / (7 / 100))) with 0 by field.
  rewrite exp_0. unfold own_term. cbn [INR].
  replace (1 + (exp (100 / 7) + 0)) with (exp (100 / 7) + 1) by ring.
  replace (exp (100 / 7) + (1 + 0)) with (exp (100 / 7) + 1) by ring.
  lra.
Qed.


Lemma loss_tiny_rows :
  infoNCE_loss_b tiny_rows default_tau
  = (own_term (1 / 7) + own_term (100 / 7)) / 2.
Proof.
  unfold tiny_rows. rewrite loss_axes by lra.
  rewrite (Rmax_right (/ 10000000000000)), (Rmax_left 1)
    by (rewrite normalize_eps_val; lra).
  rewrite normalize_eps_val. unfold default_tau. f_equal. f_equal.
  - f_equal. field.
  - f_equal. field.
Qed.

Lemma loss_tiny_rows_times_10 :
  infoNCE_loss_b (scale 10 tiny_rows) default_tau = own_term (100 / 7).
Proof.
  unfold tiny_rows, scale. cbn [map].
  replace (10 * 0) with 0 by ring. replace (10 * 1) with 10 by ring.
  replace (10 * / 10000000000000) with (/ 1000000000000) by field.
  rewrite loss_axes by lra.
  rewrite (Rmax_left (/ 1000000000000)), (Rmax_left 10)
    by (rewrite normalize_eps_val; lra).
  unfold default_tau.
  replace (/ 1000000000000 / / 1000000000000 * (/ 1000000000000 / / 1000000000000)
           / (7 / 100)) with (100 / 7) by field.
  replace (10 / 10 * (10 / 10) / (7 / 100)) with (100 / 7) by field.
  lra.
Qed.

Lemma own_term_tiny_differs :
  (own_term (1 / 7) + own_term (100 / 7)) / 2 <> own_term (100 / 7).
Proof.
  intros H. assert (E : own_term (1 / 7) = own_term (100 / 7)) by lra.
  apply own_term_inj in E. lra.
Qed.

(** *** The claims on the loss engine *)

(** C3 (as amended).  For every embedding tensor of shape (batch, sequence,
    feature) whose flattened rows are all at least 1e-12 long, the loss engine
    returns the categorical cross-entropy, against the identity labels, of the
    similarity matrix of the L2-normalized flattened rows divided by
    tau = 0.07. *)
Theorem infoNCE_refines_spec (x : tensor3) :
  Forall (fun v => normalize_eps <= vector_norm v) (reshape x) ->
  infoNCE_loss_b x default_tau = Spec.loss x.
Proof. exact (loss_on_long_rows x). Qed.

Lemma infoNCE_refines_spec_witness :
  infoNCE_loss_b unit_rows default_tau = Spec.loss unit_rows.
Proof.
  apply infoNCE_refines_spec. unfold unit_rows, reshape. cbn [map concat app].
  rewrite normalize_eps_val.
  repeat constructor;
    rewrite ?(vector_norm_axis_l 1), ?(vector_norm_axis_r 1); lra.
Defined.

(** C3 as stated fails: a row shorter than 1e-12 is divided by 1e-12, not by
    its own length, and the loss differs from the one of the L2-normalized
    rows. *)
Lemma infoNCE_short_row_differs :
  infoNCE_loss_b tiny_rows default_tau <> Spec.loss tiny_rows.
Proof.
  rewrite loss_tiny_rows. unfold tiny_rows.
  rewrite spec_loss_axes by lra. exact own_term_tiny_differs.
Qed.

(** C10 (as amended).  For every embedding tensor and every positive scalar c
    such that all flattened rows are at least 1e-12 long both before and after
    scaling by c, the loss engine returns the same value on the scaled tensor
    as on the original one. *)
Theorem infoNCE_scale_invariant (x : tensor3) (c tau : R) :
  0 < c ->
  Forall (fun v => normalize_eps <= vector_norm v
                   /\ normalize_eps <= c * vector_norm v) (reshape x) ->
  infoNCE_loss_b (scale c x) tau = infoNCE_loss_b x tau.
Proof. exact (loss_scale_long_rows x c tau). Qed.

Lemma infoNCE_scale_invariant_witness :
  infoNCE_loss_b (scale 2 unit_rows) default_tau
  = infoNCE_loss_b unit_rows default_tau.
Proof.
  apply infoNCE_scale_invariant; [lra|].
  unfold unit_rows, reshape. cbn [map concat app].
  rewrite normalize_eps_val.
  repeat constructor;
    rewrite ?(vector_norm_axis_l 1), ?(vector_norm_axis_r 1); lra.
Defined.

(** C10 as stated fails: all rows of [tiny_rows] are nonzero and 10 is
    positive, yet scaling by 10 changes the loss. *)
Lemma infoNCE_scale_changes_loss :
  Forall (fun v => Exists (fun a => a <> 0) v) (reshape tiny_rows)
  /\ 0 < 10
  /\ infoNCE_loss_b (scale 10 tiny_rows) default_tau
     <> infoNCE_loss_b tiny_rows default_tau.
Proof.
  split; [|split].
  - unfold tiny_rows, reshape. cbn [map concat app].
    constructor; [|constructor; [|constructor]].
    + apply Exists_cons_hd. apply Rinv_neq_0_compat. lra.
    + apply Exists_cons_tl, Exists_cons_hd. lra.
  - lra.
  - rewrite loss_tiny_rows, loss_tiny_rows_times_10.
    intros H. symmetry in H. exact (own_term_tiny_differs H).
Qed.

End LossEngineProofs.

(** ** EMA maintainer *)

Module EMAProofs.
Import Py EMA.
Local Open Scope Qc_scope.

Lemma blend_inplace (d : Qc) (s l : tensor) :
  zip_with (fun x y => x + (1 - d) * y) (map (fun x => x * d) s) l = blend d s l.
Proof.
  unfold blend. revert l. induction s as [|a s IH]; intros [|b l]; simpl; try reflexivity.
  f_equal; [ring | apply IH].
Qed.

Lemma length_blend d s l : length s = length l -> length (blend d s l) = length s.
Proof. intros H. unfold blend. rewrite length_zip_with. lia. Qed.

Lemma blend_zero (s l : tensor) : length s = length l -> blend 0 s l = l.
Proof.
  unfold blend. revert l. induction s as [|a s IH]; intros [|b l] H; simpl in *; try congruence.
  f_equal; [ring | apply IH; lia].
Qed.

Lemma update_one_present (d : Qc) (name : string) (s l : tensor) (st : torch) :
  grad_enabled st = false ->
  params st !! name = Some s ->
  length s = length l ->
  update_one d (name, l) st = (set_params <[name := blend d s l]> st, inr tt).
Proof.
  intros Hg Hs Hl. destruct st as [m g tp]. simpl in *. subst g.
  unfold update_one, bind, getitem, mul_, add_, bind, record, store, ret. simpl.
  rewrite Hs. simpl.
  rewrite decide_True by (rewrite length_map; exact Hl).
  unfold set_params. simpl. rewrite blend_inplace, insert_insert_eq. reflexivity.
Qed.

Lemma update_one_missing (d : Qc) (name : string) (l : tensor) (st : torch) :
  params st !! name = None ->
  update_one d (name, l) st = (st, inl (KeyError name)).
Proof.
  intros Hs. unfold update_one, bind, getitem. now rewrite Hs.
Qed.

Lemma update_one_mismatch (d : Qc) (name : string) (s l : tensor) (st : torch) :
  grad_enabled st = false ->
  params st !! name = Some s ->
  length s <> length l ->
  exists msg,
    update_one d (name, l) st
    = (set_params <[name := map (fun x => x * d) s]> st, inl (RuntimeError msg)).
Proof.
  intros Hg Hs Hl. destruct st as [m g tp]. simpl in *. subst g.
  unfold update_one, bind, getitem, mul_, add_, bind, record, store, ret. simpl.
  rewrite Hs. simpl.
  rewrite decide_False by (rewrite length_map; exact Hl).
  eexists. reflexivity.
Qed.

Section Loop.
Variable d : Qc.

Lemma update_ema_body_cons (it : string * tensor) (items : list (string * tensor))
    (st : torch) :
  update_ema_body (it :: items) d st
  = match update_one d it st with
    | (st', inr _) => update_ema_body items d st'
    | (st', inl e) => (st', inl e)
    end.
Proof. reflexivity. Qed.

Lemma for_each_covered (items : list (string * tensor)) : forall st,
  grad_enabled st = false ->
  NoDup items.*1 ->
  covered items (params st) ->
  exists st',
    update_ema_body items d st = (st', inr tt)
    /\ grad_enabled st' = false
    /\ tape st' = tape st
    /\ (forall k, k ∉ items.*1 -> params st' !! k = params st !! k)
    /\ (forall k l, (k, l) ∈ items ->
          exists s, params st !! k = Some s /\ length s = length l
                    /\ params st' !! k = Some (blend d s l)).
Proof.
  induction items as [|[name l] items IH]; intros st Hg Hnd Hc.
  - exists st. split; [reflexivity|]. split; [exact Hg|]. split; [reflexivity|].
    split; [reflexivity|]. intros k l Hk. inversion Hk.
  - rewrite fmap_cons in Hnd.
    pose proof (NoDup_cons_1_1 _ _ Hnd) as Hname. apply NoDup_cons_1_2 in Hnd.
    unfold covered in Hc. apply Forall_cons_1 in Hc as [Hh Hc].
    simpl in Hh. destruct (params st !! name) as [s|] eqn:Hs; [|contradiction].
    rewrite update_ema_body_cons.
    rewrite (update_one_present d name s l st Hg Hs Hh).
    set (st1 := set_params <[name := blend d s l]> st).
    destruct (IH st1) as (st' & Hrun & Hg' & Ht' & Hout & Hin).
    + exact Hg.
    + exact Hnd.
    + unfold covered in *. rewrite list.Forall_forall in *. intros [k l'] Hk. simpl.
      assert (k <> name).
      { intros ->. apply Hname. apply list_elem_of_fmap. exists (name, l'). auto. }
      unfold st1. simpl. rewrite lookup_insert_ne by congruence. apply (Hc (k, l') Hk).
    + exists st'. split; [exact Hrun|]. split; [exact Hg'|]. split; [exact Ht'|]. split.
      * intros k Hk. rewrite fmap_cons, not_elem_of_cons in Hk. simpl in Hk. destruct Hk as [Hk1 Hk2].
        rewrite (Hout k Hk2). unfold st1. simpl. now rewrite lookup_insert_ne by congruence.
      * intros k l' Hk. apply elem_of_cons in Hk as [[= -> ->]|Hk].
        -- exists s. split; [exact Hs|]. split; [exact Hh|].
           rewrite (Hout name Hname). unfold st1. simpl. now rewrite lookup_insert_eq.
        -- destruct (Hin k l' Hk) as (s' & Hs' & Hl' & Hb).
           assert (k <> name).
           { intros ->. apply Hname. apply list_elem_of_fmap. exists (name, l'). auto. }
           unfold st1 in Hs'. simpl in Hs'. rewrite lookup_insert_ne in Hs' by congruence.
           exists s'. auto.
Qed.

Lemma for_each_missing (items : list (string * tensor)) : forall st name,
  grad_enabled st = false ->
  name ∈ items.*1 ->
  params st !! name = None ->
  exists st' e, update_ema_body items d st = (st', inl e).
Proof.
  induction items as [|[n l] items IH]; intros st name Hg Hin Hnone.
  - inversion Hin.
  - rewrite update_ema_body_cons.
    destruct (params st !! n) as [s|] eqn:Hs.
    + destruct (decide (length s = length l)) as [Hl|Hl].
      * rewrite (update_one_present d n s l st Hg Hs Hl).
        rewrite fmap_cons in Hin. apply elem_of_cons in Hin as [->|Hin]; [simpl in *; congruence|].
        apply (IH (set_params <[n:=blend d s l]> st) name); [exact Hg|exact Hin|].
        simpl. rewrite lookup_insert_ne by congruence. exact Hnone.
      * destruct (update_one_mismatch d n s l st Hg Hs Hl) as [msg ->].
        eauto.
    + rewrite (update_one_missing d n l st Hs). eauto.
Qed.

Lemma for_each_error (items : list (string * tensor)) : forall st st' e,
  grad_enabled st = false ->
  shapes_agree items (params st) ->
  update_ema_body items d st = (st', inl e) ->
  exists name, e = KeyError name /\ name ∈ items.*1 /\ params st !! name = None.
Proof.
  induction items as [|[n l] items IH]; intros st st' e Hg Hsh Hrun.
  - discriminate Hrun.
  - unfold shapes_agree in Hsh. apply Forall_cons_1 in Hsh as [Hh Hsh]. simpl in Hh.
    rewrite update_ema_body_cons in Hrun.
    destruct (params st !! n) as [s|] eqn:Hs.
    + rewrite (update_one_present d n s l st Hg Hs Hh) in Hrun.
      assert (Hsh1 : shapes_agree items (params (set_params <[n:=blend d s l]> st))).
      { unfold shapes_agree in *. rewrite list.Forall_forall in *. intros [k l'] Hk.
        specialize (Hsh (k, l') Hk). simpl in *.
        destruct (decide (k = n)) as [->|Hkn].
        -- rewrite lookup_insert_eq. rewrite Hs in Hsh.
           rewrite length_blend; [exact Hsh|exact Hh].
        -- rewrite lookup_insert_ne by congruence. exact Hsh. }
      destruct (IH (set_params <[n:=blend d s l]> st) st' e Hg Hsh1 Hrun) as (name & -> & Hin & Hnone).
      simpl in Hnone. apply lookup_insert_None in Hnone as [Hnone Hne].
        exists name. split; [reflexivity|]. split; [|exact Hnone].
        rewrite fmap_cons. apply elem_of_cons. now right.
    + rewrite (update_one_missing d n l st Hs) in Hrun.
      injection Hrun as <- <-. exists n. split; [reflexivity|]. split; [|exact Hs].
      rewrite fmap_cons. apply elem_of_cons. now left.
Qed.


Lemma for_each_frame (items : list (string * tensor)) : forall st st' r,
  grad_enabled st = false ->
  update_ema_body items d st = (st', r) ->
  forall k, k ∉ items.*1 -> params st' !! k = params st !! k.
Proof.
  induction items as [|[n l] items IH]; intros st st' r Hg Hrun k Hk.
  - injection Hrun as <- _. reflexivity.
  - rewrite fmap_cons, not_elem_of_cons in Hk. simpl in Hk. destruct Hk as [Hkn Hk].
    rewrite update_ema_body_cons in Hrun.
    destruct (params st !! n) as [s|] eqn:Hs.
    + destruct (decide (length s = length l)) as [Hl|Hl].
      * rewrite (update_one_present d n s l st Hg Hs Hl) in Hrun.
        rewrite (IH (set_params <[n:=blend d s l]> st) st' r Hg Hrun k Hk).
        simpl. now rewrite lookup_insert_ne by congruence.
      * destruct (update_one_mismatch d n s l st Hg Hs Hl) as [msg Hm].
        rewrite Hm in Hrun. injection Hrun as <- _.
        simpl. now rewrite lookup_insert_ne by congruence.
    + rewrite (update_one_missing d n l st Hs) in Hrun.
      injection Hrun as <- _. reflexivity.
Qed.

End Loop.

Lemma update_ema_unfold (items : list (string * tensor)) (d : Qc) (st : torch) :
  update_ema items d st
  = (set_grad_enabled (grad_enabled st)
       (update_ema_body items d (set_grad_enabled false st)).1,
     (update_ema_body items d (set_grad_enabled false st)).2).
Proof.
  unfold update_ema, no_grad. now destruct (update_ema_body _ _ _).
Qed.


(** *** The claims on the EMA maintainer *)

(** C2.  For every decay value d and every parameter name present in the live
    model, one EMA update (which completes when every live parameter has a
    shadow parameter of its shape) sets the shadow parameter element-wise to
    shadow*d + live*(1-d), leaves the other shadow parameters alone, and
    records nothing with autograd whatever the grad mode of the caller; with
    d = 0 every such shadow parameter becomes equal to the live parameter. *)
Theorem update_ema_law (model_params : list (string * tensor)) (d : Qc)
    (st : torch) :
  NoDup model_params.*1 ->
  covered model_params (params st) ->
  exists st',
    update_ema model_params d st = (st', inr tt)
    /\ grad_enabled st' = grad_enabled st
    /\ tape st' = tape st
    /\ (forall k, k ∉ model_params.*1 -> params st' !! k = params st !! k)
    /\ (forall name l, (name, l) ∈ model_params ->
          exists s, params st !! name = Some s
                    /\ params st' !! name = Some (blend d s l)
                    /\ (d = 0 -> params st' !! name = Some l)).
Proof.
  intros Hnd Hc.
  destruct (for_each_covered d model_params (set_grad_enabled false st)
              eq_refl Hnd Hc) as (st1 & Hrun & Hg1 & Ht1 & Hout & Hin).
  exists (set_grad_enabled (grad_enabled st) st1).
  rewrite update_ema_unfold, Hrun. simpl.
  repeat split; try assumption.
  intros name l Hl. destruct (Hin name l Hl) as (s & Hs & Hlen & Hb).
  exists s. repeat split; try assumption.
  intros ->. now rewrite Hb, blend_zero.
Qed.

(** C8 (as amended).  For shadow and live parameter sets whose common names
    have equal shapes, the EMA update aborts exactly when some name of the live
    set is absent from the shadow set, and then with a [KeyError]; when every
    live name has a shadow parameter the update completes, whatever other names
    the shadow set holds, and leaves those untouched. *)
Theorem update_ema_aborts_iff_live_key_missing
    (model_params : list (string * tensor)) (d : Qc) (st : torch) :
  shapes_agree model_params (params st) ->
  (forall st' e, update_ema model_params d st = (st', inl e) ->
     exists name, e = KeyError name /\ name ∈ model_params.*1
                  /\ params st !! name = None)
  /\ ((exists name, name ∈ model_params.*1 /\ params st !! name = None) ->
      exists st' name, update_ema model_params d st = (st', inl (KeyError name)))
  /\ ((forall name, name ∈ model_params.*1 -> is_Some (params st !! name)) ->
      exists st', update_ema model_params d st = (st', inr tt)
                  /\ forall k, k ∉ model_params.*1 ->
                       params st' !! k = params st !! k).
Proof.
  intros Hsh. rewrite update_ema_unfold.
  destruct (update_ema_body model_params d (set_grad_enabled false st))
    as [st1 r] eqn:Hrun. simpl.
  assert (Herr : forall e, r = inl e ->
            exists name, e = KeyError name /\ name ∈ model_params.*1
                         /\ params st !! name = None).
  { intros e ->.
    apply (for_each_error d model_params (set_grad_enabled false st) st1 e
             eq_refl Hsh Hrun). }
  split; [|split].
  - intros st' e [= _ ->]. now apply Herr.
  - intros (name & Hin & Hnone).
    destruct (for_each_missing d model_params (set_grad_enabled false st) name
                eq_refl Hin Hnone) as (st2 & e & Hrun2).
    rewrite Hrun in Hrun2. injection Hrun2 as -> ->.
    destruct (Herr e eq_refl) as (name' & -> & _). eauto.
  - intros Hall. destruct r as [e|[]].
    + destruct (Herr e eq_refl) as (name & _ & Hin & Hnone).
      destruct (Hall name Hin) as [s Hs]. congruence.
    + eexists. split; [reflexivity|]. intros k Hk. simpl.
      apply (for_each_frame d model_params (set_grad_enabled false st) st1
               (inr tt) eq_refl Hrun k Hk).
Qed.

Lemma sample_live_NoDup : NoDup sample_live.*1.
Proof. apply (bool_decide_unpack _). vm_compute. exact I. Qed.

Lemma update_ema_law_witness :
  exists st', update_ema sample_live default_decay sample_shadow = (st', inr tt).
Proof.
  destruct (update_ema_law sample_live default_decay sample_shadow)
    as (st' & Hrun & _).
  - exact sample_live_NoDup.
  - repeat constructor.
  - exists st'. exact Hrun.
Defined.

(** One update with decay 0.9999 of a shadow value 0 towards a live value 1
    gives 0.0001; with decay 0 it gives the live value. *)
Example update_ema_scenario_2 :
  map this <$> (params (update_ema [("w", [1])] default_decay
                          (Torch (<["w" := [0]]> ∅) true [])).1 !! "w")
  = Some [(1 # 10000)%Q].
Proof. vm_compute. reflexivity. Qed.

Example update_ema_zero_decay :
  map this <$> (params (update_ema sample_live 0 sample_shadow).1 !! "b")
  = Some [(3 # 1)%Q; (4 # 1)%Q].
Proof. vm_compute. reflexivity. Qed.

Lemma update_ema_aborts_witness :
  exists st' name,
    update_ema live_more default_decay shadow_short = (st', inl (KeyError name)).
Proof.
  destruct (update_ema_aborts_iff_live_key_missing live_more default_decay
              shadow_short) as (_ & Habort & _).
  - repeat constructor.
  - apply Habort. exists "extra". split; [|reflexivity].
    apply (bool_decide_unpack _). vm_compute. exact I.
Defined.

(** C8 as stated fails: the shadow set holds a name the live set lacks, and
    the update completes without an exception. *)
Lemma update_ema_extra_shadow_key_silent :
  dom (params shadow_extra) <> list_to_set live_w.*1
  /\ (update_ema live_w default_decay shadow_extra).2 = inr tt.
Proof.
  split.
  - intros H.
    assert (Hin : "extra" ∈ dom (params shadow_extra)).
    { apply elem_of_dom. eexists. reflexivity. }
    rewrite H in Hin. simpl in Hin. set_solver.
  - vm_compute. reflexivity.
Qed.

End EMAProofs.

(** ** Training loop coordinator *)

Module CoordinatorProofs.
Import Py Coordinator.
Local Open Scope Z_scope.

(** *** Running a sequence *)

Lemma run_with_bind {A B : Type} (reduce : fval -> fval) (p : proc A)
    (k : A -> proc B) :
  run_with reduce (bind_proc p k)
  = match run_with reduce p with
    | (evs, inl e) => (evs, inl e)
    | (evs, inr a) =>
        let '(evs', r) := run_with reduce (k a) in (evs ++ evs', r)
    end.
Proof.
  induction p as [a|e|ev p IH|v f IH|p IH]; simpl.
  - now destruct (run_with reduce (k a)).
  - reflexivity.
  - rewrite IH. destruct (run_with reduce p) as [evs [e|a]]; [reflexivity|].
    now destruct (run_with reduce (k a)).
  - apply IH.
  - apply IH.
Qed.

Lemma run_with_emit (reduce : fval -> fval) (evs : list event) :
  run_with reduce (emit evs) = (evs, inr tt).
Proof.
  induction evs as [|ev evs IH]; simpl; [reflexivity|]. now rewrite IH.
Qed.

Lemma emit_app {A : Type} (l1 l2 : list event) (k : proc A) :
  bind_proc (emit l1) (fun _ => bind_proc (emit l2) (fun _ => k))
  = bind_proc (emit (l1 ++ l2)) (fun _ => k).
Proof.
  induction l1 as [|ev l1 IH]; simpl; [reflexivity|]. now rewrite IH.
Qed.

Lemma of_Z_nonzero (z : Z) : z <> 0 -> Q2Qc (inject_Z z) <> 0%Qc.
Proof.
  intros Hz H. apply Hz. change 0%Qc with (Q2Qc 0) in H.
  apply Q2Qc_eq_iff in H. unfold Qeq in H. simpl in H. lia.
Qed.

Lemma py_div_nonzero (a : fval) (y : Qc) :
  y <> 0%Qc -> py_div a (FNum y) = inr (fdiv a (FNum y)).
Proof.
  intros Hy. unfold py_div, fdiv. rewrite decide_False by exact Hy.
  now destruct a.
Qed.

Lemma py_div_of_Z (a : fval) (z : Z) :
  z <> 0 -> py_div a (of_Z z) = inr (fdiv a (of_Z z)).
Proof. intros Hz. apply py_div_nonzero, of_Z_nonzero, Hz. Qed.

(** *** Skipped steps *)

Lemma body_nan (c : ctx) (b : batch) (st : pstate) :
  isnan (b_loss b) = true ->
  exists evs,
    body c b st = bind_proc (emit evs) (fun _ => Ret (skipped st))
    /\ Forall (fun ev => training_effect ev = false) evs.
Proof.
  intros Hnan. unfold body. rewrite Hnan. unfold logger_info.
  destruct ((rank c =? 0) && wandb (c_args c)).
  - exists ([ZeroGrad; Forward (autocast (c_args c)); WandbLog (b_loss b)]
            ++ ((fun s => LogEmit s MsgNan) <$> logger c)).
    split.
    + rewrite <- emit_app. reflexivity.
    + apply Forall_app. split; [repeat constructor|].
      apply Forall_fmap, Forall_forall. reflexivity.
  - exists ([ZeroGrad; Forward (autocast (c_args c))]
            ++ ((fun s => LogEmit s MsgNan) <$> logger c)).
    split.
    + rewrite <- emit_app. reflexivity.
    + apply Forall_app. split; [repeat constructor|].
      apply Forall_fmap, Forall_forall. reflexivity.
Qed.

(** *** Events that are not training effects *)

Lemma quiet_saves (evs : list event) : quiet evs -> saves evs = [].
Proof.
  induction 1 as [|ev evs Hev _ IH]; [reflexivity|].
  destruct ev; simpl in Hev; try discriminate; exact IH.
Qed.

Lemma quiet_backward_values (evs : list event) :
  quiet evs -> backward_values evs = [].
Proof.
  induction 1 as [|ev evs Hev _ IH]; [reflexivity|].
  destruct ev; simpl in Hev; try discriminate; exact IH.
Qed.

Lemma quiet_no_optimizer_step (evs : list event) :
  quiet evs -> OptimizerStep ∉ evs.
Proof.
  intros H Hin. unfold quiet in H. rewrite list.Forall_forall in H.
  specialize (H _ Hin). discriminate.
Qed.

Lemma quiet_app (l1 l2 : list event) : quiet l1 -> quiet l2 -> quiet (l1 ++ l2).
Proof. intros. now apply Forall_app. Qed.

Lemma quiet_log (c : ctx) (m : message) :
  quiet ((fun s => LogEmit s m) <$> logger c).
Proof. apply Forall_fmap, Forall_forall. reflexivity. Qed.

(** *** The metrics report of one process *)

Lemma run_report (reduce : fval -> fval) (c : ctx) (b : batch) (st : pstate) :
  exists evs r,
    run_with reduce (report c b st) = (evs, r)
    /\ quiet evs
    /\ forall st', r = inr st' ->
         train_steps st' = train_steps st /\ model st' = model st
         /\ ema st' = ema st /\ opt_steps st' = opt_steps st
         /\ scaler st' = scaler st
         /\ log_steps st' = 0 /\ running_loss st' = of_Z 0
         /\ start_time st' = b_restart_time b.
Proof.
  assert (Hfail : forall e : exn,
            exists evs (r : exn + pstate),
              ([CudaSynchronize], inl e) = (evs, r) /\ quiet evs
              /\ forall st', r = inr st' ->
                   train_steps st' = train_steps st /\ model st' = model st
                   /\ ema st' = ema st /\ opt_steps st' = opt_steps st
                   /\ scaler st' = scaler st
                   /\ log_steps st' = 0 /\ running_loss st' = of_Z 0
                   /\ start_time st' = b_restart_time b).
  { intros e. eexists _, _. split; [reflexivity|].
    split; [repeat constructor|]. discriminate. }
  unfold report. cbn [emit bind_proc run_with].
  destruct (py_div (of_Z (log_steps st)) _) as [e|sps];
    cbn [lift bind_proc run_with]; [apply Hfail|].
  destruct (py_floordiv _ _) as [e|per_rank];
    cbn [lift bind_proc run_with]; [apply Hfail|].
  destruct (py_div (of_Z (per_rank * item st)) _) as [e|fraction];
    cbn [lift bind_proc run_with]; [apply Hfail|].
  destruct (py_div (running_loss st) _) as [e|avg];
    cbn [lift bind_proc run_with]; [apply Hfail|].
  destruct (py_div (reduce avg) _) as [e|avg'];
    cbn [lift bind_proc run_with]; [apply Hfail|].
  rewrite run_with_bind. unfold logger_info. rewrite run_with_emit.
  cbn [run_with]. rewrite app_nil_r.
  eexists _, _. split; [reflexivity|]. split.
  - constructor; [reflexivity|]. apply quiet_log.
  - intros st' [= <-]. simpl. repeat split; reflexivity.
Qed.

(** *** A step that is not skipped *)

Lemma run_save_checkpoint (reduce : fval -> fval) (c : ctx) (st : pstate) :
  run_with reduce (save_checkpoint c st)
  = (if rank c =? 0
     then TorchSave (checkpoint_path c (train_steps st)) (checkpoint_value c st)
          :: ((fun s => LogEmit s (MsgSaved (checkpoint_path c (train_steps st))))
              <$> logger c)
     else [], inr st).
Proof.
  unfold save_checkpoint. rewrite run_with_bind.
  destruct (rank c =? 0); cbn [run_with]; [|reflexivity].
  cbn [emit bind_proc run_with]. unfold logger_info. rewrite run_with_emit.
  now rewrite app_nil_r.
Qed.

Lemma run_train_step (reduce : fval -> fval) (b : batch) (st : pstate) :
  exists r,
    run_with reduce (train_step b st) = (step_events b st, r)
    /\ forall st1, r = inr st1 ->
         train_steps st1 = train_steps st /\ log_steps st1 = log_steps st
         /\ running_loss st1 = running_loss st
         /\ start_time st1 = start_time st /\ item st1 = item st
         /\ scaler st1 = scaler_update (scaler st) (b_found_inf b).
Proof.
  unfold train_step, step_events. cbn [emit bind_proc run_with].
  destruct (scaler_steps (scaler st) (b_found_inf b));
    cbn [emit bind_proc run_with app];
    match goal with
    | |- context [EMA.update_ema ?m ?d ?e] =>
        destruct (EMA.update_ema m d e) as [ema' [e'|[]]]
    end; cbn [run_with];
    (eexists; split; [reflexivity|]); intros st1 [= <-]; simpl;
    repeat split; reflexivity.
Qed.

Lemma body_step (c : ctx) (b : batch) (st : pstate) :
  isnan (b_loss b) = false ->
  body c b st
  = bind_proc (emit (step_prefix c b)) (fun _ =>
      bind_proc (train_step b (skipped st)) (finish c b)).
Proof.
  intros Hnan. unfold body, step_prefix. rewrite Hnan.
  destruct ((rank c =? 0) && wandb (c_args c)); reflexivity.
Qed.

Lemma quiet_step_prefix (c : ctx) (b : batch) : quiet (step_prefix c b).
Proof.
  unfold step_prefix. destruct ((rank c =? 0) && wandb (c_args c));
    repeat constructor.
Qed.

Lemma run_finish (reduce : fval -> fval) (c : ctx) (b : batch) (st1 : pstate) :
  exists evs r,
    run_with reduce (finish c b st1) = (evs, r)
    /\ backward_values evs = []
    /\ (OptimizerStep ∉ evs)
    /\ forall st', r = inr st' ->
         train_steps st' = train_steps st1 + 1
         /\ scaler st' = scaler st1
         /\ ckpt_every (c_args c) <> 0
         /\ saves evs
            = if (rank c =? 0) && due (ckpt_every (c_args c)) (train_steps st')
              then [(checkpoint_path c (train_steps st'), checkpoint_value c st')]
              else [].
Proof.
  unfold finish. rewrite run_with_bind.
  unfold py_mod at 1.
  destruct (log_every (c_args c) =? 0); cbn [lift run_with].
  { eexists _, _. split; [reflexivity|]. split; [reflexivity|].
    split; [apply not_elem_of_nil|]. discriminate. }
  rewrite run_with_bind.
  assert (Hmid : exists evs r,
            run_with reduce
              (if train_steps (count_step b st1) mod log_every (c_args c) =? 0
               then report c b (count_step b st1) else Ret (count_step b st1))
            = (evs, r)
            /\ quiet evs
            /\ forall st2, r = inr st2 ->
                 train_steps st2 = train_steps st1 + 1
                 /\ scaler st2 = scaler st1).
  { destruct (_ =? 0).
    - destruct (run_report reduce c b (count_step b st1))
        as (evs & r & Hrun & Hq & Hst).
      exists evs, r. split; [exact Hrun|]. split; [exact Hq|].
      intros st2 ->. destruct (Hst st2 eq_refl) as (H1 & _ & _ & _ & H5 & _).
      rewrite H1, H5. split; reflexivity.
    - eexists _, _. split; [reflexivity|]. split; [constructor|].
      intros st2 [= <-]. split; reflexivity. }
  destruct Hmid as (evs & r & -> & Hq & Hst).
  destruct r as [e|st2].
  { cbn [app]. exists evs, (inl e). split; [reflexivity|].
    split; [now apply quiet_backward_values|].
    split; [now apply quiet_no_optimizer_step|]. discriminate. }
  destruct (Hst st2 eq_refl) as [Hts Hsc].
  rewrite run_with_bind. unfold py_mod.
  destruct (ckpt_every (c_args c) =? 0) eqn:Hck; cbn [lift run_with].
  { rewrite !app_nil_r. eexists _, _. split; [reflexivity|].
    split; [now apply quiet_backward_values|].
    split; [now apply quiet_no_optimizer_step|]. discriminate. }
  apply Z.eqb_neq in Hck. cbn [app].
  fold (due (ckpt_every (c_args c)) (train_steps st2)).
  destruct (due (ckpt_every (c_args c)) (train_steps st2)) eqn:Hdue.
  - rewrite run_save_checkpoint. eexists _, _. split; [reflexivity|].
    assert (Hq' : quiet ((fun s => LogEmit s (MsgSaved (checkpoint_path c (train_steps st2))))
                         <$> logger c)) by apply quiet_log.
    destruct (rank c =? 0).
    + split.
      { unfold backward_values. rewrite omap_app. cbn [omap list_omap].
        fold (backward_values evs).
        fold (backward_values ((fun s => LogEmit s (MsgSaved (checkpoint_path c (train_steps st2)))) <$> logger c)).
        now rewrite !quiet_backward_values. }
      split.
      { intros Hin. apply elem_of_app in Hin as [Hin|Hin].
        - now apply (quiet_no_optimizer_step evs).
        - apply elem_of_cons in Hin as [Hin|Hin]; [discriminate|].
          now apply (quiet_no_optimizer_step _ Hq'). }
      intros st' [= <-]. rewrite Hdue. repeat split; try assumption.
      unfold saves. rewrite omap_app. cbn [omap list_omap].
      fold (saves evs).
      fold (saves ((fun s => LogEmit s (MsgSaved (checkpoint_path c (train_steps st2)))) <$> logger c)).
      now rewrite !quiet_saves.
    + rewrite app_nil_r.
      split; [now apply quiet_backward_values|].
      split; [now apply quiet_no_optimizer_step|].
      intros st' [= <-]. repeat split; try assumption.
      now apply quiet_saves.
  - cbn [run_with]. rewrite app_nil_r. eexists _, _. split; [reflexivity|].
    split; [now apply quiet_backward_values|].
    split; [now apply quiet_no_optimizer_step|].
    intros st' [= <-]. rewrite Hdue, andb_false_r. repeat split; try assumption.
    now apply quiet_saves.
Qed.

Lemma run_body_step (reduce : fval -> fval) (c : ctx) (b : batch) (st : pstate) :
  isnan (b_loss b) = false ->
  exists rest r,
    run_with reduce (body c b st)
    = (step_prefix c b ++ step_events b st ++ rest, r)
    /\ backward_values rest = []
    /\ (OptimizerStep ∉ rest)
    /\ forall st', r = inr st' ->
         train_steps st' = train_steps st + 1
         /\ scaler st' = scaler_update (scaler st) (b_found_inf b)
         /\ ckpt_every (c_args c) <> 0
         /\ saves rest
            = if (rank c =? 0) && due (ckpt_every (c_args c)) (train_steps st')
              then [(checkpoint_path c (train_steps st'), checkpoint_value c st')]
              else [].
Proof.
  intros Hnan. rewrite (body_step c b st Hnan).
  rewrite run_with_bind, run_with_emit, run_with_bind.
  destruct (run_train_step reduce b (skipped st)) as (r1 & -> & Hst1).
  change (step_events b (skipped st)) with (step_events b st).
  destruct r1 as [e|st1].
  - exists [], (inl e). rewrite app_nil_r. split; [reflexivity|].
    split; [reflexivity|]. split; [apply not_elem_of_nil|]. discriminate.
  - destruct (Hst1 st1 eq_refl) as (Hts & _ & _ & _ & _ & Hsc).
    destruct (run_finish reduce c b st1) as (evs & r & -> & Hbv & Hopt & Hst').
    exists evs, r. split; [reflexivity|]. split; [exact Hbv|].
    split; [exact Hopt|].
    intros st' ->. destruct (Hst' st' eq_refl) as (H1 & H2 & H3 & H4).
    simpl in Hts, Hsc. split; [now rewrite H1, Hts|].
    split; [now rewrite H2, Hsc|]. split; [exact H3|exact H4].
Qed.

Lemma body_nan_run (reduce : fval -> fval) (c : ctx) (b : batch) (st : pstate) :
  isnan (b_loss b) = true ->
  exists evs,
    run_with reduce (body c b st) = (evs, inr (skipped st)) /\ quiet evs.
Proof.
  intros Hnan. destruct (body_nan c b st Hnan) as (evs & -> & Hq).
  exists evs. rewrite run_with_bind, run_with_emit. cbn [run_with].
  now rewrite app_nil_r.
Qed.

Lemma append_assoc (s1 s2 s3 : string) :
  ((s1 ++ s2) ++ s3 = s1 ++ (s2 ++ s3))%string.
Proof.
  induction s1 as [|a s1 IH]; [reflexivity|].
  change (String a ((s1 ++ s2) ++ s3) = String a (s1 ++ (s2 ++ s3)))%string.
  now rewrite IH.
Qed.

Lemma checkpoint_path_eq (c : ctx) (n : Z) :
  checkpoint_path c n
  = (results_dir (c_args c) ++ "/" ++ format_0d 3 (experiment_index c)
     ++ "-vision_encoder/checkpoints/" ++ format_0d 7 n ++ ".pt")%string.
Proof.
  unfold checkpoint_path, checkpoint_dir, experiment_dir, model_string_name.
  rewrite !append_assoc. reflexivity.
Qed.

Lemma due_spec (every n : Z) :
  every <> 0 -> due every n = true <-> 0 < n /\ (every | n).
Proof.
  intros He. unfold due. rewrite andb_true_iff, Z.eqb_eq, Z.gtb_lt.
  rewrite (Z.mod_divide n every He). tauto.
Qed.

Lemma length_zfill (width : nat) (s : string) :
  (width <= String.length (zfill width s))%nat.
Proof.
  unfold zfill.
  assert (Hz : forall n, String.length (zeros n) = n).
  { induction n as [|n IH]; [reflexivity|]. cbn [zeros String.length]. now rewrite IH. }
  assert (Ha : forall a b, String.length (a ++ b) = (String.length a + String.length b)%nat).
  { induction a as [|x a IH]; intros b'; [reflexivity|].
    change (S (String.length (a ++ b')) = S (String.length a + String.length b'))%nat.
    now rewrite IH. }
  rewrite Ha, Hz. lia.
Qed.

(** *** The metrics report of a group *)

Lemma advance_emit_bind {A : Type} (l : list event) (p : proc A) :
  advance (bind_proc (emit l) (fun _ => p))
  = ((l ++ (advance p).1), (advance p).2).
Proof.
  induction l as [|ev l IH]; simpl.
  - now destruct (advance p).
  - now rewrite IH.
Qed.

Lemma mapM_imap_Some {A B C : Type} (g : B -> option C) (l : list A) :
  forall (F : nat -> A -> B) (H : nat -> A -> C),
  (forall i x, g (F i x) = Some (H i x)) ->
  mapM g (imap F l) = Some (imap H l).
Proof.
  induction l as [|x l IH]; intros F H Hg; [reflexivity|].
  cbn [imap mapM]. rewrite Hg. cbn.
  rewrite (IH (F ∘ S) (H ∘ S)) by (intros; apply Hg). reflexivity.
Qed.

Lemma mapM_imap_None {A B C : Type} (g : B -> option C) (F : nat -> A -> B)
    (l : list A) :
  l <> [] -> (forall i x, g (F i x) = None) -> mapM g (imap F l) = None.
Proof.
  intros Hl Hg. destruct l as [|x l]; [congruence|].
  cbn [imap mapM]. now rewrite Hg.
Qed.

Lemma Qc_minus_nonzero (x y : Qc) : x <> y -> (x - y)%Qc <> 0%Qc.
Proof.
  intros Hxy H. apply Hxy.
  replace x with ((x - y) + y)%Qc by ring. rewrite H. ring.
Qed.

Lemma report_waits (c : ctx) (b : batch) (st : pstate) :
  log_steps st <> 0 -> b_end_time b <> start_time st ->
  world_size c <> 0 -> dataset_len c <> 0 ->
  report c b st
  = Emit CudaSynchronize (AllReduce (window_mean st) (report_cont c b st)).
Proof.
  intros Hlog Htime Hw Hlen. unfold report.
  cbn [emit bind_proc].
  rewrite (py_div_nonzero _ _ (Qc_minus_nonzero _ _ Htime)).
  cbn [lift bind_proc].
  unfold py_floordiv. rewrite (proj2 (Z.eqb_neq _ _) Hw).
  cbn [lift bind_proc].
  rewrite (py_div_of_Z _ _ Hlen).
  cbn [lift bind_proc].
  rewrite (py_div_of_Z (running_loss st) _ Hlog).
  cbn [lift bind_proc].
  reflexivity.
Qed.

Lemma report_cont_rest (c : ctx) (b : batch) (st : pstate) (total : fval) :
  world_size c <> 0 ->
  report_cont c b st total = report_rest c b st total.
Proof.
  intros Hw. unfold report_cont.
  rewrite (py_div_of_Z total _ Hw). reflexivity.
Qed.

Lemma advance_report_rest (c : ctx) (b : batch) (st : pstate) (total : fval) :
  advance (report_rest c b st total)
  = ((fun s => LogEmit s (metrics_line c b st total)) <$> logger c,
     Ret (reported b st)).
Proof.
  unfold report_rest. rewrite advance_emit_bind. cbn [advance].
  now rewrite app_nil_r.
Qed.

Section Group.
Variables (a : args) (index len : Z).
Variable inputs : list (batch * pstate).

Let n := length inputs.
Let c (i : nat) : ctx := group_ctx a index len n i.

Hypothesis Hne : inputs <> [].
Hypothesis Hlen : len <> 0.
Hypothesis Hok :
  Forall (fun x => log_steps x.2 <> 0 /\ b_end_time x.1 <> start_time x.2) inputs.

Lemma group_size_nonzero : Z.of_nat n <> 0.
Proof. unfold n. destruct inputs; [congruence|simpl; lia]. Qed.

Lemma group_report_run :
  run_world 1 (group a index len (fun c x => report c x.1 x.2) inputs)
  = Finished
      (imap (fun i x =>
               (CudaSynchronize
                :: ((fun s => LogEmit s (metrics_line (c i) x.1 x.2 (global_sum inputs)))
                    <$> logger (c i)),
                inr (reported x.1 x.2))) inputs).
Proof.
  pose proof group_size_nonzero as Hn.
  unfold group. fold n.
  rewrite (imap_ext _ (fun i x => ([] : list event,
              Emit CudaSynchronize
                (AllReduce (window_mean x.2) (report_cont (c i) x.1 x.2))))).
  2:{ intros i x Hx. rewrite list.Forall_forall in Hok.
      destruct (Hok x (list_elem_of_lookup_2 _ _ _ Hx)) as [H1 H2].
      f_equal. apply report_waits; assumption. }
  cbn [run_world]. unfold advance_all. rewrite fmap_imap.
  rewrite (mapM_imap_None (with_events finished)); [|exact Hne|reflexivity].
  rewrite (mapM_imap_Some _ _ _ (fun _ x => window_mean x.2)) by reflexivity.
  rewrite fmap_imap.
  unfold advance_all. rewrite fmap_imap.
  rewrite (mapM_imap_Some _ _ _
             (fun i x => (CudaSynchronize
                :: ((fun s => LogEmit s (metrics_line (c i) x.1 x.2 (global_sum inputs)))
                    <$> logger (c i)),
                inr (reported x.1 x.2)))).
  - reflexivity.
  - intros i x. cbn. 
    replace (imap (fun _ x0 => window_mean x0.2) inputs)
      with ((fun x0 => window_mean x0.2) <$> inputs)
      by (clear; generalize inputs as l; induction l; simpl; [reflexivity|]; f_equal; auto).
    fold (global_sum inputs).
    rewrite (report_cont_rest (c i) x.1 x.2 (global_sum inputs) Hn).
    rewrite advance_report_rest. reflexivity.
Qed.

End Group.

Lemma saves_step_events (b : batch) (st : pstate) : saves (step_events b st) = [].
Proof. unfold step_events. now destruct (scaler_steps _ _). Qed.

Lemma saves_app (l1 l2 : list event) : saves (l1 ++ l2) = saves l1 ++ saves l2.
Proof. apply omap_app. Qed.

Lemma backward_values_app (l1 l2 : list event) :
  backward_values (l1 ++ l2) = backward_values l1 ++ backward_values l2.
Proof. apply omap_app. Qed.

Lemma scaler_update_enabled (s : grad_scaler) (found_inf : bool) :
  s_enabled s = true -> s_enabled (scaler_update s found_inf) = true.
Proof.
  intros H. unfold scaler_update. rewrite H.
  destruct found_inf; [reflexivity|]. now destruct (_ =? 2000).
Qed.

Lemma body_keeps_scaler_enabled (reduce : fval -> fval) (c : ctx) (b : batch)
    (st st' : pstate) (evs : list event) :
  s_enabled (scaler st) = true ->
  run_with reduce (body c b st) = (evs, inr st') ->
  s_enabled (scaler st') = true.
Proof.
  intros Hen Hrun. destruct (isnan (b_loss b)) eqn:Hnan.
  - destruct (body_nan_run reduce c b st Hnan) as (evs' & Hrun' & _).
    rewrite Hrun in Hrun'. injection Hrun' as _ ->. exact Hen.
  - destruct (run_body_step reduce c b st Hnan) as (rest & r & Hrun' & _ & _ & Hst).
    rewrite Hrun in Hrun'. injection Hrun' as _ <-.
    destruct (Hst st' eq_refl) as (_ & -> & _).
    now apply scaler_update_enabled.
Qed.

Lemma run_batches_enabled (reduce : fval -> fval) (c : ctx) (bs : list batch) :
  forall st st' evs,
  s_enabled (scaler st) = true ->
  run_batches reduce c bs st = (evs, inr st') ->
  s_enabled (scaler st') = true.
Proof.
  induction bs as [|b bs IH]; intros st st' evs Hen Hrun.
  - injection Hrun as _ <-. exact Hen.
  - cbn [run_batches] in Hrun.
    destruct (run_with reduce (body c b st)) as [evs1 [e|st1]] eqn:Hb;
      [discriminate|].
    destruct (run_batches reduce c bs st1) as [evs2 r] eqn:Hbs.
    injection Hrun as _ ->.
    apply (IH st1 st' evs2); [|exact Hbs].
    apply (body_keeps_scaler_enabled reduce c b st st1 evs1 Hen Hb).
Qed.

Lemma step_backward (reduce : fval -> fval) (c : ctx) (b : batch) (st : pstate)
    (q : Qc) :
  b_loss b = FNum q ->
  s_enabled (scaler st) = true ->
  exists evs r,
    run_with reduce (body c b st) = (evs, r)
    /\ Forward (autocast (c_args c)) ∈ evs
    /\ backward_values evs = [FNum (q * s_scale (scaler st))%Qc]
    /\ (OptimizerStep ∈ evs <-> b_found_inf b = false).
Proof.
  intros Hq Hen.
  assert (Hnan : isnan (b_loss b) = false) by now rewrite Hq.
  destruct (run_body_step reduce c b st Hnan) as (rest & r & Hrun & Hbv & Hopt & _).
  exists (step_prefix c b ++ step_events b st ++ rest), r.
  split; [exact Hrun|]. split; [|split].
  - apply elem_of_app. left. unfold step_prefix. apply elem_of_app. left.
    apply elem_of_cons. right. apply elem_of_cons. now left.
  - rewrite !backward_values_app, Hbv, app_nil_r.
    rewrite (quiet_backward_values _ (quiet_step_prefix c b)). cbn [app].
    unfold step_events, scaler_scale. rewrite Hen, Hq.
    now destruct (scaler_steps _ _).
  - unfold step_events, scaler_steps. rewrite Hen. split.
    + intros Hin. apply elem_of_app in Hin as [Hin|Hin].
      { now apply quiet_no_optimizer_step in Hin; [|apply quiet_step_prefix]. }
      apply elem_of_app in Hin as [Hin|Hin]; [|contradiction].
      destruct (b_found_inf b); [|reflexivity].
      cbn in Hin. apply elem_of_cons in Hin as [Hin|Hin]; [discriminate|].
      apply elem_of_cons in Hin as [Hin|Hin]; [discriminate|]. inversion Hin.
    + intros ->. apply elem_of_app. right. apply elem_of_app. left.
      cbn. apply elem_of_cons. right. apply elem_of_cons. now left.
Qed.

(** *** The claims on the coordinator *)

(** C1.  A step whose loss is NaN ends after the forward pass and the log
    note: it enters no collective, has no backward pass, no optimizer step, no
    EMA update and no checkpoint write among its events, and leaves the global
    step counter, the window loss sum, the window step count, the scaler, the
    model, the optimizer and the EMA parameters as they were; only the index of
    the batch within the epoch advances. *)
Theorem nan_step_is_skipped (c : ctx) (b : batch) (st : pstate) :
  isnan (b_loss b) = true ->
  exists evs,
    body c b st
    = bind_proc (emit evs) (fun _ =>
        Ret (PState (train_steps st) (log_steps st) (running_loss st)
               (start_time st) (item st + 1) (scaler st) (model st)
               (opt_steps st) (ema st)))
    /\ Forall (fun ev => training_effect ev = false) evs.
Proof. exact (body_nan c b st). Qed.

Lemma nan_step_is_skipped_witness :
  exists evs,
    body sample_ctx nan_batch before_tenth
    = bind_proc (emit evs) (fun _ =>
        Ret (PState 9 9 (of_Z 9) 0%Qc (9 + 1) GradScaler sample_model 9
               sample_ema)).
Proof.
  destruct (nan_step_is_skipped sample_ctx nan_batch before_tenth)
    as (evs & Hrun & _).
  - reflexivity.
  - exists evs. exact Hrun.
Defined.

(** C4.  At a metrics report of a group of W processes, every process
    contributes its window mean loss sum / step count to the all-reduce, and
    the loss every process reports is the sum of these means divided by W;
    afterwards its window loss sum and step count are zero and its window
    timer is the new reading of the clock. *)
Theorem report_global_mean (a : args) (index len : Z)
    (inputs : list (batch * pstate)) :
  inputs <> [] ->
  len <> 0 ->
  Forall (fun x => log_steps x.2 <> 0 /\ b_end_time x.1 <> start_time x.2)
    inputs ->
  exists results,
    run_world 1 (group a index len (fun c x => report c x.1 x.2) inputs)
    = Finished results
    /\ forall i b st, inputs !! i = Some (b, st) ->
         exists pct sps st',
           results !! i
           = Some (CudaSynchronize
                   :: ((fun s =>
                          LogEmit s
                            (MsgMetrics pct (format_0d 7 (train_steps st))
                               (fdiv
                                  (fsum ((fun x => fdiv (running_loss x.2)
                                                     (of_Z (log_steps x.2)))
                                         <$> inputs))
                                  (of_Z (Z.of_nat (length inputs))))
                               sps))
                       <$> logger (group_ctx a index len (length inputs) i)),
                   inr st')
           /\ log_steps st' = 0
           /\ running_loss st' = of_Z 0
           /\ start_time st' = b_restart_time b.
Proof.
  intros Hne Hlen Hok. eexists. split.
  - apply group_report_run; assumption.
  - intros i b st Hi. eexists _, _, _. split.
    + rewrite list_lookup_imap, Hi. reflexivity.
    + repeat split.
Qed.

Lemma report_global_mean_witness :
  exists results,
    run_world 1 (group sample_args 0 100 (fun c x => report c x.1 x.2)
                   four_windows)
    = Finished results.
Proof.
  destruct (report_global_mean sample_args 0 100 four_windows)
    as (results & Hrun & _).
  - discriminate.
  - lia.
  - repeat constructor; simpl; try lia;
      intros H; apply (f_equal this) in H; discriminate.
  - exists results. exact Hrun.
Defined.

(** Four processes with window means 1, 2, 3 and 4 all report 2.5. *)
Example report_scenario_3 :
  match run_world 1 (group sample_args 0 100 (fun c x => report c x.1 x.2)
                       four_windows) with
  | Finished results =>
      (fun r => (fun v => match v with FNum q => Some (this q) | FNaN => None end)
                <$> reported_losses r.1) <$> results
  | Hung => []
  end
  = [[Some (5 # 2)%Q]; [Some (5 # 2)%Q]; [Some (5 # 2)%Q]; [Some (5 # 2)%Q]].
Proof. vm_compute. reflexivity. Qed.

(** C5 (as amended).  In an iteration that completes, a checkpoint is written
    exactly when the step is not skipped, the process has rank 0, and the
    global step counter is a positive multiple of [ckpt_every]; the written
    value maps model, ema, opt and args to the state at that step, and its path
    is <results_dir>/<NNN>-vision_encoder/checkpoints/<step:07d>.pt. *)
Theorem checkpoint_cadence (reduce : fval -> fval) (c : ctx) (b : batch)
    (st st' : pstate) (evs : list event) :
  run_with reduce (body c b st) = (evs, inr st') ->
  (isnan (b_loss b) = false /\ rank c = 0 /\ 0 < train_steps st'
   /\ (ckpt_every (c_args c) | train_steps st')
   /\ train_steps st' = train_steps st + 1
   /\ saves evs
      = [((results_dir (c_args c) ++ "/" ++ format_0d 3 (experiment_index c)
           ++ "-vision_encoder/checkpoints/" ++ format_0d 7 (train_steps st')
           ++ ".pt")%string,
          [("model", ModelState (model st'));
           ("ema", EmaState (EMA.params (ema st')));
           ("opt", OptState (opt_steps st'));
           ("args", ArgsValue (c_args c))])])
  \/ (~ (isnan (b_loss b) = false /\ rank c = 0 /\ 0 < train_steps st'
         /\ (ckpt_every (c_args c) | train_steps st'))
      /\ saves evs = []).
Proof.
  intros Hrun. destruct (isnan (b_loss b)) eqn:Hnan.
  - right. destruct (body_nan_run reduce c b st Hnan) as (evs' & Hrun' & Hq).
    rewrite Hrun in Hrun'. injection Hrun' as -> _.
    split; [intros [? _]; discriminate|]. now apply quiet_saves.
  - destruct (run_body_step reduce c b st Hnan)
      as (rest & r & Hrun' & _ & _ & Hst).
    rewrite Hrun in Hrun'.
    pose proof (f_equal fst Hrun') as Hevs. pose proof (f_equal snd Hrun') as Hr.
    cbn [fst snd] in Hevs, Hr. subst evs r. clear Hrun'.
    destruct (Hst st' eq_refl) as (Hts & _ & Hck & Hsaves).
    rewrite !saves_app, saves_step_events,
      (quiet_saves _ (quiet_step_prefix c b)), Hsaves.
    cbn [app]. rewrite <- checkpoint_path_eq.
    destruct (rank c =? 0) eqn:Hrank.
    + apply Z.eqb_eq in Hrank.
      destruct (due (ckpt_every (c_args c)) (train_steps st')) eqn:Hdue.
      * left. apply (due_spec _ _ Hck) in Hdue as [Hpos Hdiv]. cbn.
        repeat split; assumption || reflexivity.
      * right. split; [|reflexivity]. intros (_ & _ & Hpos & Hdiv).
        assert (due (ckpt_every (c_args c)) (train_steps st') = true)
          by now apply due_spec.
        congruence.
    + right. apply Z.eqb_neq in Hrank. split; [|reflexivity].
      intros (_ & Hr & _). contradiction.
Qed.

Lemma checkpoint_cadence_witness :
  exists evs st',
    run_with (fun v => v) (body sample_ctx sample_batch before_tenth)
    = (evs, inr st')
    /\ saves evs <> [].
Proof.
  pose (r := run_with (fun v => v) (body sample_ctx sample_batch before_tenth)).
  assert (H : r = (r.1, inr (match r.2 with
                             | inr s => s
                             | inl _ => before_tenth
                             end))) by (vm_compute; reflexivity).
  exists r.1, (match r.2 with inr s => s | inl _ => before_tenth end).
  split; [exact H|].
  destruct (checkpoint_cadence _ _ _ _ _ _ H)
    as [(_ & _ & _ & _ & _ & Hs)|[Hn _]].
  - rewrite Hs. discriminate.
  - exfalso. apply Hn. split; [reflexivity|]. split; [reflexivity|].
    split; [vm_compute; reflexivity|]. exists 1. vm_compute. reflexivity.
Defined.

(** With [ckpt_every] = 10, twenty-five steps without a skip write the
    checkpoints of steps 10 and 20 only. *)
Example checkpoint_scenario_4 :
  (saves (run_batches (fun v => v) sample_ctx (replicate 25 sample_batch)
            sample_state).1).*1
  = ["results_ct/000-vision_encoder/checkpoints/0000010.pt";
     "results_ct/000-vision_encoder/checkpoints/0000020.pt"].
Proof. vm_compute. reflexivity. Qed.

Example format_step_6000 : format_0d 7 6000 = "0006000".
Proof. reflexivity. Qed.

(** C5 as stated fails: the checkpoint of step 10 is not stored at
    results_ct/000-vision_encoder/checkpoints/0000010 but at that path
    followed by .pt. *)
Lemma checkpoint_path_has_suffix :
  (saves (run_with (fun v => v)
            (body sample_ctx sample_batch before_tenth)).1).*1
  <> [(results_dir sample_args ++ "/" ++ format_0d 3 0
       ++ "-vision_encoder/checkpoints/" ++ format_0d 7 10)%string].
Proof. vm_compute. intros H. discriminate H. Qed.

(** C6 (as amended).  The mixed-precision flag only decides whether the
    forward pass runs under autocast.  The scaler is constructed enabled
    whatever the flag says and stays enabled: on every step of a run that is
    not skipped, backward is called on the loss times the current scale, which
    is 65536 at the first step, and the optimizer step takes place exactly when
    the gradients hold no inf or NaN. *)
Theorem scaler_ignores_autocast_flag (reduce : fval -> fval) (c : ctx)
    (m : named_params) (e : EMA.torch) (now : Qc) (bs : list batch)
    (evs0 : list event) (st : pstate) (b : batch) (q : Qc) :
  run_batches reduce c bs (initial_state m e now) = (evs0, inr st) ->
  b_loss b = FNum q ->
  exists evs r,
    run_with reduce (body c b st) = (evs, r)
    /\ Forward (autocast (c_args c)) ∈ evs
    /\ backward_values evs = [FNum (q * s_scale (scaler st))%Qc]
    /\ (OptimizerStep ∈ evs <-> b_found_inf b = false)
    /\ (bs = [] -> s_scale (scaler st) = Q2Qc 65536).
Proof.
  intros Hrun Hq.
  assert (Hen : s_enabled (scaler st) = true).
  { apply (run_batches_enabled reduce c bs (initial_state m e now) st evs0);
      [reflexivity|exact Hrun]. }
  destruct (step_backward reduce c b st q Hq Hen)
    as (evs & r & Hb & Hf & Hbv & Hopt).
  exists evs, r. repeat split; try assumption; try apply Hopt.
  intros ->. injection Hrun as _ <-. reflexivity.
Qed.

Lemma scaler_ignores_autocast_flag_witness :
  exists evs r,
    run_with (fun v => v) (body sample_ctx sample_batch sample_state) = (evs, r)
    /\ backward_values evs = [FNum (1 * Q2Qc 65536)%Qc].
Proof.
  destruct (scaler_ignores_autocast_flag (fun v => v) sample_ctx sample_model
              sample_ema 0%Qc [] [] sample_state sample_batch 1%Qc)
    as (evs & r & Hrun & _ & Hbv & _).
  - reflexivity.
  - reflexivity.
  - exists evs, r. split; [exact Hrun|exact Hbv].
Defined.

(** C6 as stated fails: with the flag off, backward is not called on the loss
    but on 65536 times the loss, and an overflow of the gradients leaves the
    optimizer step out. *)
Lemma scaler_is_not_pass_through :
  autocast (c_args sample_ctx) = false
  /\ backward_values
       (run_with (fun v => v) (body sample_ctx sample_batch sample_state)).1
     <> [b_loss sample_batch]
  /\ OptimizerStep
     ∉ (run_with (fun v => v) (body sample_ctx overflow_batch sample_state)).1.
Proof.
  split; [reflexivity|]. split.
  - intros H. vm_compute in H. injection H as H. discriminate H.
  - intros H. vm_compute in H.
    repeat (apply elem_of_cons in H as [H|H]; [discriminate H|]).
    inversion H.
Qed.

(** The logger of every rank writes to standard error; only the logger of
    rank 0 has a file. *)
Lemma logger_has_stderr (c : ctx) : Stderr ∈ logger c.
Proof.
  unfold logger, create_logger, loguru_default_sinks.
  destruct (rank c =? 0); apply elem_of_cons; now left.
Qed.

Lemma logger_without_file (c : ctx) : rank c <> 0 -> logger c = [Stderr].
Proof.
  intros Hr. unfold logger, create_logger.
  now rewrite (proj2 (Z.eqb_neq _ _) Hr).
Qed.

(** C7 fails on the code: [logger.info] of line 148 is not guarded by the rank,
    and the logger of a process of rank 1 still has the handler of standard
    error.  In a group of two processes both write the metrics line; only the
    log file is reserved to rank 0. *)
Theorem report_rank_1_emits_metrics_line :
  match run_world 1 (group sample_args 0 100 (fun c x => report c x.1 x.2)
                       two_windows) with
  | Finished results => (fun r => metrics_sinks r.1) <$> results
  | Hung => []
  end
  = [[Stderr; LogFile "results_ct/000-vision_encoder/log_0.txt"]; [Stderr]].
Proof. vm_compute. reflexivity. Qed.

End CoordinatorProofs.

(** ** Command-line entry point *)

Module CliProofs.
Import Py Cli.
Local Open Scope Z_scope.

Lemma parser_dests :
  dest <$> parser
  = ["results_dir"; "image_size"; "epochs"; "global_batch_size"; "global_seed";
     "num_workers"; "log_every"; "vae"; "ckpt_every"; "wandb"; "embed_dim";
     "autocast"].
Proof. reflexivity. Qed.

Lemma parsed_defaults : parsed parser (defaults parser).
Proof.
  split.
  - apply (bool_decide_unpack _). vm_compute. exact I.
  - repeat constructor; eexists; split; reflexivity.
Qed.

(** No argument of the parser is stored under the name of a dataset folder. *)
Lemma parsed_lacks_ct_folder (ns : namespace) :
  parsed parser ns -> getattr ns "ct_image_folder_train"
                      = inl (AttributeError "ct_image_folder_train").
Proof.
  intros [Hdom _]. unfold getattr.
  destruct (ns !! "ct_image_folder_train") as [v|] eqn:Hv; [|reflexivity].
  apply elem_of_dom_2 in Hv. rewrite Hdom, parser_dests in Hv.
  exfalso. revert Hv. apply (bool_decide_unpack _). vm_compute. exact I.
Qed.

Lemma parsed_getattr (ns : namespace) (a : argument) :
  parsed parser ns -> a ∈ parser ->
  exists v, getattr ns (dest a) = inr v /\ admits (arg_kind a) v = true.
Proof.
  intros [_ Hall] Ha. rewrite list.Forall_forall in Hall.
  destruct (Hall a Ha) as (v & Hv & Hadm). exists v. unfold getattr.
  now rewrite Hv.
Qed.

(** [main] does not get past the first attribute of the dataset. *)
Lemma main_stops (ns : namespace) (ev : env) :
  parsed parser ns -> exists e, main ns ev = inl e.
Proof.
  intros Hp. pose proof (parsed_lacks_ct_folder ns Hp) as Hct.
  unfold main.
  repeat (first [rewrite Hct; cbn [bind]; eexists; reflexivity
                | run_step; [eexists; reflexivity|]]).
Qed.

Lemma parsed_has (ns : namespace) (name : string) :
  parsed parser ns -> name ∈ dest <$> parser ->
  exists v, getattr ns name = inr v.
Proof.
  intros [Hdom _] Hin. unfold getattr.
  assert (Hd : name ∈ dom ns) by (rewrite Hdom; now apply elem_of_list_to_set).
  apply elem_of_dom in Hd as [v ->]. eauto.
Qed.

Lemma image_size_divisible (v : value) :
  admits (KInt (Some [224; 256; 512])) v = true ->
  exists z, as_int v = inr z /\ (z mod 8 =? 0) = true.
Proof.
  destruct v as [s|z|b]; try discriminate. simpl. intros H.
  apply bool_decide_eq_true_1 in H. exists z. split; [reflexivity|].
  repeat (apply elem_of_cons in H as [->|H]; [reflexivity|]). inversion H.
Qed.

(** On a machine where every earlier step succeeds, [main] raises the
    attribute error of the first dataset folder. *)
Lemma main_attribute_error (ns : namespace) (ev : env) (r : Z) :
  parsed parser ns ->
  cuda_available ev = true ->
  get_rank ev = inr r ->
  device_count ev <> 0 ->
  (forall c, fails ev c = None) ->
  main ns ev = inl (AttributeError "ct_image_folder_train").
Proof.
  intros Hp Hcuda Hrank Hdev Hext.
  pose proof (parsed_lacks_ct_folder ns Hp) as Hct.
  destruct (parsed_has ns "global_seed" Hp ltac:(in_parser)) as [v1 H1].
  destruct (parsed_has ns "wandb" Hp ltac:(in_parser)) as [v2 H2].
  destruct (parsed_has ns "epochs" Hp ltac:(in_parser)) as [v3 H3].
  destruct (parsed_has ns "global_batch_size" Hp ltac:(in_parser)) as [v4 H4].
  destruct (parsed_has ns "results_dir" Hp ltac:(in_parser)) as [v5 H5].
  destruct (parsed_has ns "embed_dim" Hp ltac:(in_parser)) as [v7 H7].
  destruct (parsed_has ns "vae" Hp ltac:(in_parser)) as [v8 H8].
  destruct (parsed_getattr ns
              (Argument "--image-size" (KInt (Some [224; 256; 512])) (VInt 224))
              Hp) as (v6 & H6 & Ha6).
  { unfold parser. apply elem_of_cons. right. apply elem_of_cons. now left. }
  change (dest _) with "image_size" in H6. cbn [arg_kind] in Ha6.
  destruct (image_size_divisible v6 Ha6) as (z & Hz & Hmod).
  unfold main, external, assert.
  rewrite (proj2 (Z.eqb_neq _ _) Hdev).
  repeat (first [ rewrite Hext | rewrite Hcuda | rewrite Hrank | rewrite H1
                | rewrite H2 | rewrite H3 | rewrite H4 | rewrite H5
                | rewrite H6 | rewrite H7 | rewrite H8 | rewrite Hz
                | rewrite Hmod | rewrite Hct | progress cbn [bind] ]).
  destruct (r =? 0); [destruct (truthy v2)|]; reflexivity.
Qed.

(** *** The claim on the entry point *)

(** C9 (as amended).  For every namespace the argument parser returns and
    every machine, [main] ends in an exception before the training loop; when
    the steps before the dataset succeed (a GPU is there, the rank is known,
    the libraries' calls return), the exception is the attribute error of
    [ct_image_folder_train], which the parser does not define, like
    [mask_image_folder_train] and [mir_image_folder_train]. *)
Theorem main_never_reaches_training_loop (ns : namespace) (ev : env) :
  parsed parser ns ->
  (exists e, main ns ev = inl e)
  /\ main ns ev <> inr TrainingLoop
  /\ (cuda_available ev = true ->
      (exists r, get_rank ev = inr r) ->
      device_count ev <> 0 ->
      (forall c, fails ev c = None) ->
      main ns ev = inl (AttributeError "ct_image_folder_train"))
  /\ ns !! "ct_image_folder_train" = None
  /\ ns !! "mask_image_folder_train" = None
  /\ ns !! "mir_image_folder_train" = None.
Proof.
  intros Hp. destruct (main_stops ns ev Hp) as [e He].
  split; [eauto|]. split; [rewrite He; discriminate|]. split.
  - intros Hcuda [r Hr] Hdev Hext.
    exact (main_attribute_error ns ev r Hp Hcuda Hr Hdev Hext).
  - destruct Hp as [Hdom _].
    repeat split; apply not_elem_of_dom; rewrite Hdom, parser_dests;
      apply (bool_decide_unpack _); vm_compute; exact I.
Qed.

Lemma main_never_reaches_training_loop_witness :
  main (defaults parser) healthy_env
  = inl (AttributeError "ct_image_folder_train").
Proof.
  destruct (main_never_reaches_training_loop (defaults parser) healthy_env
              parsed_defaults) as (_ & _ & H & _).
  apply H.
  - reflexivity.
  - exists 0. reflexivity.
  - discriminate.
  - reflexivity.
Defined.

(** C9 as stated fails: without a GPU, [main] called on the namespace of the
    empty command line raises the assertion error of line 52, not an
    attribute error. *)
Lemma main_without_gpu_raises_assertion :
  parsed parser (defaults parser)
  /\ main (defaults parser) no_gpu_env
     = inl (AssertionError "Training currently requires at least one GPU.")
  /\ forall attr, main (defaults parser) no_gpu_env <> inl (AttributeError attr).
Proof.
  split; [exact parsed_defaults|]. split; [reflexivity|].
  intros attr. discriminate.
Qed.

End CliProofs.

(** * Further properties *)

(** ** Loss engine: bounds and collapsed batches *)

Module LossEngineBounds.
Import LossEngine LossEngineProofs.
Local Open Scope R_scope.

(** *** Bounds of the loss *)



Lemma ln_ge_of_exp_le (x s : R) : exp x <= s -> x <= ln s.
Proof.
  intros H. destruct (Rle_or_lt x (ln s)) as [Hle|Hlt]; [exact Hle|].
  exfalso. apply exp_increasing in Hlt.
  rewrite exp_ln in Hlt by (pose proof (exp_pos x); lra). lra.
Qed.






(** *** Collapsed embeddings *)






(** *** The loss of rows of unit length *)

Lemma dot_scale (c : R) (v w : list R) :
  dot (map (fun x => x / c) v) (map (fun x => x / c) w) = dot v w / (c * c).
Proof.
  unfold dot. revert w. induction v as [|a v IH]; intros [|b w];
    cbn [map zip_with rsum foldr]; try (unfold Rdiv; ring).
  fold (rsum (zip_with Rmult (map (fun x => x / c) v) (map (fun x => x / c) w))).
  fold (rsum (zip_with Rmult v w)).
  rewrite IH. destruct (Req_dec c 0) as [->|Hc].
  - unfold Rdiv. rewrite Rmult_0_l, Rinv_0. ring.
  - field. exact Hc.
Qed.

Lemma dot_self_nonneg (v : list R) : 0 <= dot v v.
Proof.
  unfold dot. rewrite <- squares_as_dot. apply sum_squares_nonneg.
Qed.

Lemma dot_le_half (u w : list R) : dot u w <= (dot u u + dot w w) / 2.
Proof.
  revert w. induction u as [|a u IH]; intros [|b w].
  - change (dot [] []) with 0. lra.
  - pose proof (dot_self_nonneg (b :: w)).
    change (dot [] (b :: w)) with 0. change (dot [] []) with 0.
    revert H. generalize (dot (b :: w) (b :: w)). intros d Hd. lra.
  - pose proof (dot_self_nonneg (a :: u)).
    change (dot (a :: u) []) with 0. change (dot [] []) with 0.
    revert H. generalize (dot (a :: u) (a :: u)). intros d Hd. lra.
  - specialize (IH w).
    change (dot (a :: u) (b :: w)) with (a * b + dot u w).
    change (dot (a :: u) (a :: u)) with (a * a + dot u u).
    change (dot (b :: w) (b :: w)) with (b * b + dot w w).
    assert (0 <= (a - b) * (a - b)) by apply Rle_0_sqr.
    lra.
Qed.

Lemma dot_normalized (v : list R) :
  normalize_eps <= vector_norm v ->
  dot (Spec.l2_normalize v) (Spec.l2_normalize v) = 1.
Proof.
  intros H. pose proof normalize_eps_pos as He.
  rewrite vector_norm_l2 in H. unfold Spec.l2_normalize.
  rewrite dot_scale. unfold Spec.l2_norm in *.
  rewrite sqrt_sqrt by apply dot_self_nonneg.
  assert (dot v v <> 0).
  { intros H0. rewrite H0, sqrt_0 in H. lra. }
  now field.
Qed.

Lemma rsum_le_const (l : list R) (M : R) :
  Forall (fun y => y <= M) l -> rsum l <= INR (length l) * M.
Proof.
  induction 1 as [|y l Hy _ IH]; [simpl; lra|].
  cbn [length rsum foldr]. fold (rsum l). rewrite S_INR. lra.
Qed.

Lemma ln_le_compat (p q : R) : 0 < p -> p <= q -> ln p <= ln q.
Proof.
  intros Hp Hpq. apply ln_ge_of_exp_le. now rewrite exp_ln.
Qed.

Lemma loss_unit_rows_le (n : matrix) (tau : R) :
  0 < tau -> n <> [] ->
  Forall (fun u => dot u u = 1) n ->
  cross_entropy (map (map (fun s => s / tau)) (matmul_T n n))
    (arange (length n))
  <= ln (INR (length n)).
Proof.
  intros Htau Hne Hunit. rewrite cross_entropy_arange.
  set (B := length n).
  assert (HB : 0 < INR B).
  { apply lt_0_INR. unfold B. destruct n; [congruence|simpl; lia]. }
  rewrite List.Forall_forall in Hunit.
  assert (Hterm : Forall (fun y => y <= ln (INR B))
            (map (fun i =>
               - ln (exp (dot (nth i n []) (nth i n []) / tau)
                     / rsum (map (fun j => exp (dot (nth i n []) (nth j n []) / tau))
                               (seq 0 B))))
               (seq 0 B))).
  { apply List.Forall_forall. intros y Hy.
    apply in_map_iff in Hy as (i & <- & Hi). apply in_seq in Hi.
    assert (Hui : dot (nth i n []) (nth i n []) = 1)
      by (apply Hunit, nth_In; fold B; lia).
    rewrite Hui.
    set (Z := rsum _).
    assert (HZ : 0 < Z).
    { unfold Z. apply rsum_map_exp_pos. destruct B; [lia|discriminate]. }
    assert (HZle : Z <= INR B * exp (1 / tau)).
    { unfold Z.
      replace B with (length (map (fun j => exp (dot (nth i n []) (nth j n []) / tau))
                                (seq 0 B))) at 2
        by (now rewrite length_map, length_seq).
      apply rsum_le_const, List.Forall_forall. intros y Hy.
      apply in_map_iff in Hy as (j & <- & Hj). apply in_seq in Hj.
      assert (Huj : dot (nth j n []) (nth j n []) = 1)
        by (apply Hunit, nth_In; fold B; lia).
      pose proof (dot_le_half (nth i n []) (nth j n [])) as Hd.
      rewrite Hui, Huj in Hd.
      destruct (Rle_lt_or_eq_dec _ _ Hd) as [Hlt|Heq].
      - left. apply exp_increasing. apply Rmult_lt_compat_r; [|lra].
        now apply Rinv_0_lt_compat.
      - right. f_equal. f_equal. lra. }
    pose proof (exp_pos (1 / tau)) as He.
    assert (Hq : / INR B <= exp (1 / tau) / Z).
    { apply (Rmult_le_reg_r (INR B * Z)); [nra|].
      replace (/ INR B * (INR B * Z)) with Z by (field; lra).
      replace (exp (1 / tau) / Z * (INR B * Z)) with (INR B * exp (1 / tau))
        by (field; lra).
      exact HZle. }
    pose proof (ln_le_compat _ _ (Rinv_0_lt_compat _ HB) Hq) as Hln.
    rewrite ln_Rinv in Hln by exact HB. lra. }
  apply rsum_le_const in Hterm. rewrite length_map, length_seq in Hterm.
  apply (Rmult_le_reg_r (INR B)); [exact HB|].
  replace (rsum _ / INR B * INR B) with (rsum
    (map (fun i =>
               - ln (exp (dot (nth i n []) (nth i n []) / tau)
                     / rsum (map (fun j => exp (dot (nth i n []) (nth j n []) / tau))
                               (seq 0 B))))
               (seq 0 B))) by (field; lra).
  lra.
Qed.

(** X4.  For a positive temperature and a batch of B samples whose flattened
    rows are all at least 1e-12 long, the loss is at most ln B. *)
Theorem infoNCE_loss_le_ln_batch (x : tensor3) (tau : R) :
  0 < tau -> x <> [] ->
  Forall (fun v => normalize_eps <= vector_norm v) (reshape x) ->
  infoNCE_loss_b x tau <= ln (INR (length x)).
Proof.
  intros Htau Hne H. unfold infoNCE_loss_b.
  rewrite (normalize_long_rows _ H).
  replace (length x) with (length (map Spec.l2_normalize (reshape x)))
    by (unfold reshape; now rewrite !length_map).
  apply loss_unit_rows_le; [exact Htau| |].
  - unfold reshape. destruct x; [congruence|discriminate].
  - apply List.Forall_forall. intros u Hu.
    apply in_map_iff in Hu as (v & <- & Hv).
    rewrite List.Forall_forall in H. apply dot_normalized, H, Hv.
Qed.


Lemma infoNCE_loss_le_ln_batch_witness :
  infoNCE_loss_b unit_rows default_tau <= ln (INR (length unit_rows)).
Proof.
  apply infoNCE_loss_le_ln_batch.
  - unfold default_tau. lra.
  - discriminate.
  - unfold unit_rows, reshape. cbn [map concat app].
    rewrite normalize_eps_val.
    repeat constructor;
      rewrite ?(vector_norm_axis_l 1), ?(vector_norm_axis_r 1); lra.
Defined.

End LossEngineBounds.

(** ** EMA maintainer: what an update keeps *)

Module EMAInvariants.
Import Py EMA EMAProofs.
Local Open Scope Qc_scope.

(** *** What every update keeps *)

Lemma update_one_keeps (d : Qc) (it : string * tensor) (st st' : torch)
    (r : exn + unit) :
  grad_enabled st = false ->
  update_one d it st = (st', r) ->
  grad_enabled st' = false /\ tape st' = tape st
  /\ dom (params st') = dom (params st).
Proof.
  intros Hg Hrun. destruct it as [name l].
  destruct (params st !! name) as [s|] eqn:Hs.
  - assert (Hd : forall t, dom (<[name := t]> (params st)) = dom (params st)).
    { intros t. apply dom_insert_lookup_L. now exists s. }
    destruct (decide (length s = length l)) as [Hl|Hl].
    + rewrite (update_one_present d name s l st Hg Hs Hl) in Hrun.
      injection Hrun as <- _. simpl. auto.
    + destruct (update_one_mismatch d name s l st Hg Hs Hl) as [msg Hm].
      rewrite Hm in Hrun. injection Hrun as <- _. simpl. auto.
  - rewrite (update_one_missing d name l st Hs) in Hrun.
    injection Hrun as <- _. auto.
Qed.

Lemma update_ema_body_keeps (d : Qc) (items : list (string * tensor)) :
  forall st st' r,
  grad_enabled st = false ->
  update_ema_body items d st = (st', r) ->
  grad_enabled st' = false /\ tape st' = tape st
  /\ dom (params st') = dom (params st).
Proof.
  induction items as [|it items IH]; intros st st' r Hg Hrun.
  - injection Hrun as <- _. auto.
  - rewrite update_ema_body_cons in Hrun.
    destruct (update_one d it st) as [st1 [e|[]]] eqn:Hone.
    + injection Hrun as <- _. exact (update_one_keeps d it st st1 _ Hg Hone).
    + destruct (update_one_keeps d it st st1 _ Hg Hone) as (Hg1 & Ht1 & Hd1).
      destruct (IH st1 st' r Hg1 Hrun) as (Hg' & Ht' & Hd').
      split; [exact Hg'|]. split; congruence.
Qed.

Lemma update_ema_keeps (model_params : list (string * tensor)) (d : Qc)
    (st st' : torch) (r : exn + unit) :
  update_ema model_params d st = (st', r) ->
  grad_enabled st' = grad_enabled st /\ tape st' = tape st
  /\ dom (params st') = dom (params st).
Proof.
  rewrite update_ema_unfold.
  destruct (update_ema_body model_params d (set_grad_enabled false st))
    as [st1 r1] eqn:Hrun.
  destruct (update_ema_body_keeps d model_params (set_grad_enabled false st)
              st1 r1 eq_refl Hrun) as (_ & Ht & Hd).
  intros [= <- _]. simpl. auto.
Qed.

(** X5.  Whatever the parameter sets and however the update ends, it leaves
    the grad mode as it found it, records nothing with autograd, and neither
    adds nor removes a shadow parameter. *)
Theorem update_ema_keeps_mode_tape_keys (model_params : list (string * tensor))
    (d : Qc) (st : torch) :
  grad_enabled (update_ema model_params d st).1 = grad_enabled st
  /\ tape (update_ema model_params d st).1 = tape st
  /\ dom (params (update_ema model_params d st).1) = dom (params st).
Proof.
  destruct (update_ema model_params d st) as [st' r] eqn:H.
  exact (update_ema_keeps model_params d st st' r H).
Qed.

(** *** An update that aborts is not undone *)

Lemma update_ema_body_app (d : Qc) (l1 l2 : list (string * tensor)) (st : torch) :
  update_ema_body (l1 ++ l2) d st
  = match update_ema_body l1 d st with
    | (st', inr _) => update_ema_body l2 d st'
    | (st', inl e) => (st', inl e)
    end.
Proof.
  revert st. induction l1 as [|it l1 IH]; intros st; [reflexivity|].
  rewrite <- app_comm_cons, !update_ema_body_cons.
  destruct (update_one d it st) as [st1 [e|[]]]; [reflexivity|apply IH].
Qed.

(** X6.  When a name of the live set has no shadow parameter, the update
    raises the [KeyError] of that name and the shadow parameters of the names
    before it stay updated: an aborted update is not undone. *)
Theorem update_ema_abort_keeps_earlier_updates
    (done : list (string * tensor)) (name : string) (l : tensor)
    (rest : list (string * tensor)) (d : Qc) (st : torch) :
  NoDup done.*1 ->
  covered done (params st) ->
  params st !! name = None ->
  exists st',
    update_ema (done ++ (name, l) :: rest) d st = (st', inl (KeyError name))
    /\ forall k lk, (k, lk) ∈ done ->
         exists s, params st !! k = Some s
                   /\ params st' !! k = Some (blend d s lk).
Proof.
  intros Hnd Hc Hnone. rewrite update_ema_unfold, update_ema_body_app.
  destruct (for_each_covered d done (set_grad_enabled false st) eq_refl Hnd Hc)
    as (st1 & -> & Hg1 & _ & Hout & Hin).
  assert (Hname : name ∉ done.*1).
  { intros Hk. apply list_elem_of_fmap in Hk as ([k lk] & -> & Hk).
    destruct (Hin k lk Hk) as (s & Hs & _).  cbn in Hs, Hnone.
    unfold tensor in *. congruence. }
  assert (Hnone1 : params st1 !! name = None).
  { rewrite (Hout name Hname). exact Hnone. }
  rewrite update_ema_body_cons, (update_one_missing d name l st1 Hnone1).
  eexists. split; [reflexivity|]. intros k lk Hk.
  destruct (Hin k lk Hk) as (s & Hs & _ & Hb). exists s. auto.
Qed.

(** *** Updates that change nothing, and updates in a row *)

Lemma blend_same (d : Qc) (l : tensor) : blend d l l = l.
Proof.
  unfold blend. induction l as [|a l IH]; [reflexivity|].
  cbn [zip_with]. rewrite IH. f_equal. ring.
Qed.

Lemma blend_blend (d1 d2 : Qc) (s l : tensor) :
  length s = length l ->
  blend d2 (blend d1 s l) l = blend (d1 * d2) s l.
Proof.
  unfold blend. revert l. induction s as [|a s IH]; intros [|b l] H;
    try discriminate; [reflexivity|].
  cbn [zip_with]. rewrite IH by (simpl in H; lia). f_equal. ring.
Qed.

Lemma torch_eq (st st' : torch) :
  params st = params st' -> grad_enabled st = grad_enabled st' ->
  tape st = tape st' -> st = st'.
Proof. destruct st, st'. simpl. now intros -> -> ->. Qed.

(** X7.  When every live parameter equals its shadow parameter, the update
    changes nothing, whatever the decay. *)
Theorem update_ema_fixed_point (model_params : list (string * tensor)) (d : Qc)
    (st : torch) :
  Forall (fun it => params st !! it.1 = Some it.2) model_params ->
  update_ema model_params d st = (st, inr tt).
Proof.
  intros H. rewrite update_ema_unfold.
  assert (Hbody : forall st0, grad_enabled st0 = false ->
            Forall (fun it => params st0 !! it.1 = Some it.2) model_params ->
            update_ema_body model_params d st0 = (st0, inr tt)).
  { clear. induction model_params as [|[name l] items IH]; intros st0 Hg H;
      [reflexivity|].
    apply Forall_cons_1 in H as [Hh Ht]. simpl in Hh.
    rewrite update_ema_body_cons,
      (update_one_present d name l l st0 Hg Hh eq_refl), blend_same.
    replace (set_params <[name:=l]> st0) with st0.
    - now apply IH.
    - apply torch_eq; try reflexivity. simpl. now rewrite insert_id. }
  rewrite (Hbody (set_grad_enabled false st) eq_refl H). simpl.
  f_equal. now destruct st.
Qed.

(** X8.  Two updates in a row towards the same live parameters, with decays
    d1 and d2, are one update with decay d1*d2. *)
Theorem update_ema_twice (model_params : list (string * tensor)) (d1 d2 : Qc)
    (st : torch) :
  NoDup model_params.*1 ->
  covered model_params (params st) ->
  update_ema model_params d2 (update_ema model_params d1 st).1
  = update_ema model_params (d1 * d2) st.
Proof.
  intros Hnd Hc. rewrite !update_ema_unfold. cbn [fst].
  destruct (for_each_covered d1 model_params (set_grad_enabled false st)
              eq_refl Hnd Hc) as (st1 & Hrun1 & Hg1 & Ht1 & Hout1 & Hin1).
  destruct (for_each_covered (d1 * d2) model_params (set_grad_enabled false st)
              eq_refl Hnd Hc) as (st3 & Hrun3 & Hg3 & Ht3 & Hout3 & Hin3).
  rewrite Hrun1, Hrun3. cbn [fst snd].
  assert (Hc1 : covered model_params (params st1)).
  { unfold covered. apply list.Forall_forall. intros [k l] Hk.
    destruct (Hin1 k l Hk) as (s & _ & Hlen & Hb). cbn [fst snd].
    unfold tensor in *. rewrite Hb. now rewrite length_blend. }
  destruct (for_each_covered d2 model_params
              (set_grad_enabled false (set_grad_enabled (grad_enabled st) st1))
              eq_refl Hnd Hc1) as (st2 & Hrun2 & Hg2 & Ht2 & Hout2 & Hin2).
  rewrite Hrun2. cbn [fst snd]. f_equal.
  apply torch_eq; cbn; [|reflexivity|rewrite Ht2, Ht3; cbn; exact Ht1].
  apply map_eq. intros k.
  destruct (decide (k ∈ model_params.*1)) as [Hk|Hk].
  - apply list_elem_of_fmap in Hk as ([k' l] & -> & Hk). cbn [fst].
    destruct (Hin1 k' l Hk) as (s & Hs & Hlen & Hb1).
    destruct (Hin2 k' l Hk) as (s1 & Hs1 & _ & Hb2).
    destruct (Hin3 k' l Hk) as (s3 & Hs3 & _ & Hb3).
    cbn in Hs1, Hs, Hs3. unfold tensor in *.
    rewrite Hb2, Hb3. f_equal.
    assert (s1 = blend d1 s l) by congruence. assert (s3 = s) by congruence.
    subst. now apply blend_blend.
  - rewrite (Hout2 k Hk), (Hout3 k Hk). cbn. apply (Hout1 k Hk).
Qed.

(** *** Values stay in their range *)

Lemma blend_entry_range (lo hi d x y : Qc) :
  lo <= x <= hi -> lo <= y <= hi -> 0 <= d <= 1 ->
  lo <= x * d + y * (1 - d) <= hi.
Proof.
  intros [H1 H2] [H3 H4] [H5 H6].
  assert (H7 : 0 <= 1 - d) by (now apply Qcle_minus_iff in H6).
  split.
  - replace lo with (lo * d + lo * (1 - d)) by ring.
    apply Qcplus_le_compat; now apply Qcmult_le_compat_r.
  - replace hi with (hi * d + hi * (1 - d)) by ring.
    apply Qcplus_le_compat; now apply Qcmult_le_compat_r.
Qed.

Lemma blend_in_range (lo hi d : Qc) (s l : tensor) :
  0 <= d <= 1 -> in_range lo hi s -> in_range lo hi l ->
  in_range lo hi (blend d s l).
Proof.
  intros Hd Hs. revert l. unfold in_range, blend.
  induction Hs as [|x s Hx _ IH]; intros l Hl; [constructor|].
  destruct Hl as [|y l Hy Hl]; [constructor|].
  cbn [zip_with]. constructor; [now apply blend_entry_range|now apply IH].
Qed.

(** X9.  For a decay between 0 and 1, an update keeps every entry of every
    shadow parameter between two bounds that hold for the entries of the shadow
    and of the live parameters. *)
Theorem update_ema_stays_in_range (model_params : list (string * tensor))
    (d lo hi : Qc) (st : torch) :
  NoDup model_params.*1 ->
  covered model_params (params st) ->
  0 <= d <= 1 ->
  map_Forall (fun _ t => in_range lo hi t) (params st) ->
  Forall (fun it => in_range lo hi it.2) model_params ->
  map_Forall (fun _ t => in_range lo hi t)
    (params (update_ema model_params d st).1).
Proof.
  intros Hnd Hc Hd Hst Hlive. rewrite update_ema_unfold. cbn [fst].
  destruct (for_each_covered d model_params (set_grad_enabled false st)
              eq_refl Hnd Hc) as (st1 & -> & _ & _ & Hout & Hin).
  cbn. intros k t Hk.
  destruct (decide (k ∈ model_params.*1)) as [Hm|Hm].
  - apply list_elem_of_fmap in Hm as ([k' l] & -> & Hm). cbn [fst] in Hk.
    destruct (Hin k' l Hm) as (s & Hs & _ & Hb).
    unfold tensor in *. rewrite Hb in Hk. injection Hk as <-.
    apply blend_in_range; [exact Hd|exact (Hst k' s Hs)|].
    rewrite list.Forall_forall in Hlive. exact (Hlive (k', l) Hm).
  - rewrite (Hout k Hm) in Hk. exact (Hst k t Hk).
Qed.

Lemma update_ema_abort_keeps_earlier_updates_witness :
  exists st',
    update_ema live_more default_decay shadow_short
    = (st', inl (KeyError "extra")).
Proof.
  destruct (update_ema_abort_keeps_earlier_updates [("w", [Q2Qc 2])] "extra"
              [Q2Qc 5] [] default_decay shadow_short) as (st' & H & _).
  - apply (bool_decide_unpack _). vm_compute. exact I.
  - repeat constructor.
  - reflexivity.
  - exists st'. exact H.
Defined.

Lemma update_ema_fixed_point_witness :
  update_ema live_w default_decay shadow_same = (shadow_same, inr tt).
Proof. apply update_ema_fixed_point. repeat constructor. Defined.

Lemma update_ema_twice_witness :
  update_ema sample_live (Q2Qc (1 # 2))
    (update_ema sample_live default_decay sample_shadow).1
  = update_ema sample_live (default_decay * Q2Qc (1 # 2)) sample_shadow.
Proof.
  apply update_ema_twice; [exact sample_live_NoDup|repeat constructor].
Defined.

Lemma update_ema_stays_in_range_witness :
  map_Forall (fun _ t => in_range 0 (Q2Qc 4) t)
    (params (update_ema sample_live default_decay sample_shadow).1).
Proof.
  assert (Hle : forall x y : Qc, Qle_bool x y = true -> x <= y).
  { intros x y H. now apply Qle_bool_imp_le. }
  apply update_ema_stays_in_range.
  - exact sample_live_NoDup.
  - repeat constructor.
  - split; apply Hle; reflexivity.
  - unfold sample_shadow. cbn [params].
    apply map_Forall_insert_2;
      [repeat constructor; apply Hle; reflexivity|].
    apply map_Forall_insert_2;
      [repeat constructor; apply Hle; reflexivity|].
    apply map_Forall_empty.
  - repeat constructor; apply Hle; reflexivity.
Defined.

End EMAInvariants.

(** ** Training loop coordinator: runs and groups *)

Module CoordinatorRuns.
Import Py Coordinator CoordinatorProofs.
Local Open Scope Z_scope.

(** *** The state after a completed iteration *)

Lemma run_report_state (reduce : fval -> fval) (c : ctx) (b : batch)
    (st st' : pstate) (evs : list event) :
  run_with reduce (report c b st) = (evs, inr st') -> st' = reported b st.
Proof.
  unfold report. cbn [emit bind_proc run_with].
  destruct (py_div (of_Z (log_steps st)) _) as [e|sps];
    cbn [lift bind_proc run_with]; [discriminate|].
  destruct (py_floordiv _ _) as [e|per_rank];
    cbn [lift bind_proc run_with]; [discriminate|].
  destruct (py_div (of_Z (per_rank * item st)) _) as [e|fraction];
    cbn [lift bind_proc run_with]; [discriminate|].
  destruct (py_div (running_loss st) _) as [e|avg];
    cbn [lift bind_proc run_with]; [discriminate|].
  destruct (py_div (reduce avg) _) as [e|avg'];
    cbn [lift bind_proc run_with]; [discriminate|].
  rewrite run_with_bind. unfold logger_info. rewrite run_with_emit.
  cbn [run_with]. intros [= _ <-]. reflexivity.
Qed.

Lemma run_finish_state (reduce : fval -> fval) (c : ctx) (b : batch)
    (st1 st' : pstate) (evs : list event) :
  run_with reduce (finish c b st1) = (evs, inr st') ->
  log_every (c_args c) <> 0 /\ st' = counted c b st1.
Proof.
  unfold finish, counted. rewrite run_with_bind. unfold py_mod at 1.
  destruct (log_every (c_args c) =? 0) eqn:Hlog; cbn [lift run_with];
    [discriminate|].
  apply Z.eqb_neq in Hlog. cbn [train_steps count_step].
  rewrite run_with_bind.
  destruct (_ =? 0).
  - destruct (run_with reduce (report c b (count_step b st1)))
      as [evs1 [e|st2]] eqn:Hrep; [discriminate|].
    apply run_report_state in Hrep. subst st2.
    rewrite run_with_bind. unfold py_mod.
    destruct (ckpt_every (c_args c) =? 0); cbn [lift run_with]; [discriminate|].
    destruct (_ && _).
    + rewrite run_save_checkpoint. intros [= _ <-]. auto.
    + cbn [run_with]. intros [= _ <-]. auto.
  - cbn [run_with]. rewrite run_with_bind. unfold py_mod.
    destruct (ckpt_every (c_args c) =? 0); cbn [lift run_with]; [discriminate|].
    destruct (_ && _).
    + rewrite run_save_checkpoint. intros [= _ <-]. auto.
    + cbn [run_with]. intros [= _ <-]. auto.
Qed.

Lemma body_completed (reduce : fval -> fval) (c : ctx) (b : batch)
    (st st' : pstate) (evs : list event) :
  run_with reduce (body c b st) = (evs, inr st') ->
  if isnan (b_loss b)
  then st' = skipped st /\ quiet evs
  else log_every (c_args c) <> 0
       /\ length (backward_values evs) = 1%nat
       /\ exists st1,
            st' = counted c b st1
            /\ train_steps st1 = train_steps st
            /\ log_steps st1 = log_steps st
            /\ running_loss st1 = running_loss st
            /\ start_time st1 = start_time st
            /\ item st1 = item st + 1.
Proof.
  intros Hrun. destruct (isnan (b_loss b)) eqn:Hnan.
  - destruct (body_nan_run reduce c b st Hnan) as (evs' & Hrun' & Hq).
    rewrite Hrun in Hrun'. injection Hrun' as -> ->. auto.
  - rewrite (body_step c b st Hnan) in Hrun.
    rewrite run_with_bind, run_with_emit, run_with_bind in Hrun.
    destruct (run_train_step reduce b (skipped st)) as (r1 & Htr & Hst1).
    rewrite Htr in Hrun. destruct r1 as [e|st1]; [discriminate|].
    destruct (run_with reduce (finish c b st1)) as [evs2 r2] eqn:Hfin.
    pose proof (f_equal fst Hrun) as Hevs. pose proof (f_equal snd Hrun) as Hr.
    cbn [fst snd] in Hevs, Hr. subst evs r2.
    destruct (run_finish reduce c b st1) as (evs3 & r3 & Hfin' & Hbv & _).
    rewrite Hfin in Hfin'. injection Hfin' as <- _.
    destruct (run_finish_state reduce c b st1 st' evs2 Hfin) as [Hlog ->].
    destruct (Hst1 st1 eq_refl) as (H1 & H2 & H3 & H4 & H5 & _).
    split; [exact Hlog|]. split.
    + rewrite !backward_values_app, Hbv, app_nil_r,
        (quiet_backward_values _ (quiet_step_prefix c b)).
      unfold step_events. cbn. now destruct (scaler_steps _ _).
    + exists st1. repeat split; assumption.
Qed.

(** *** Counters over a run *)

Lemma counted_counters (c : ctx) (b : batch) (st1 : pstate) :
  train_steps (counted c b st1) = train_steps st1 + 1
  /\ item (counted c b st1) = item st1.
Proof. unfold counted. now destruct (_ =? 0). Qed.

(** X10.  Over a completed run of the loop, the global step counter grows by
    the number of batches whose loss is not NaN, which is also the number of
    backward passes, while the index of the batch within the epoch grows by the
    number of all batches. *)
Theorem run_counts_unskipped_steps (reduce : fval -> fval) (c : ctx)
    (bs : list batch) (st st' : pstate) (evs : list event) :
  run_batches reduce c bs st = (evs, inr st') ->
  train_steps st' = train_steps st + Z.of_nat (length (counted_batches bs))
  /\ item st' = item st + Z.of_nat (length bs)
  /\ length (backward_values evs) = length (counted_batches bs).
Proof.
  revert st evs. induction bs as [|b bs IH]; intros st evs Hrun.
  - injection Hrun as <- <-. cbn. repeat split; lia.
  - cbn [run_batches] in Hrun.
    destruct (run_with reduce (body c b st)) as [evs1 [e|st1]] eqn:Hb;
      [discriminate|].
    destruct (run_batches reduce c bs st1) as [evs2 r] eqn:Hbs.
    injection Hrun as <- ->.
    destruct (IH st1 evs2 Hbs) as (H1 & H2 & H3).
    pose proof (body_completed reduce c b st st1 evs1 Hb) as Hbody.
    unfold counted_batches in *. rewrite filter_cons.
    rewrite backward_values_app, length_app, H1, H2, H3.
    destruct (isnan (b_loss b)) eqn:Hnan.
    + destruct Hbody as [-> Hq]. rewrite (quiet_backward_values _ Hq).
      rewrite decide_False by discriminate. cbn. repeat split; lia.
    + destruct Hbody as (_ & Hbv & st0 & -> & Hts & _ & _ & _ & Hit).
      destruct (counted_counters c b st0) as [Hc1 Hc2].
      rewrite decide_True by reflexivity. rewrite Hbv, Hc1, Hc2, Hts, Hit.
      cbn [length]. repeat split; lia.
Qed.

(** *** The window of the running loss *)

Lemma mod_succ (t L : Z) :
  0 < L -> (t + 1) mod L <> 0 -> (t + 1) mod L = t mod L + 1.
Proof.
  intros HL Hne. pose proof (Z.mod_pos_bound t L HL) as Hr.
  pose proof (Z.div_mod t L ltac:(lia)) as Ht.
  destruct (Z.eq_dec (t mod L + 1) L) as [Heq|Hneq].
  - exfalso. apply Hne. apply Z.mod_divide; [lia|].
    exists (t / L + 1). lia.
  - symmetry. apply (Z.mod_unique _ _ (t / L)); lia.
Qed.

Lemma body_keeps_window (reduce : fval -> fval) (c : ctx) (b : batch)
    (st st' : pstate) (evs : list event) :
  0 < log_every (c_args c) ->
  window_ok c st ->
  run_with reduce (body c b st) = (evs, inr st') ->
  window_ok c st'.
Proof.
  intros HL [Hw Hn] Hrun.
  pose proof (body_completed reduce c b st st' evs Hrun) as Hbody.
  destruct (isnan (b_loss b)) eqn:Hnan.
  - destruct Hbody as [-> _]. split; assumption.
  - destruct Hbody as (_ & _ & st1 & -> & Hts & Hls & Hrl & _ & _).
    unfold counted, window_ok.
    destruct (_ =? 0) eqn:Hmod; cbn.
    + apply Z.eqb_eq in Hmod. rewrite Hts in Hmod. rewrite Hts.
      split; [now rewrite Hmod|reflexivity].
    + apply Z.eqb_neq in Hmod. rewrite Hts in Hmod. rewrite Hts, Hls, Hrl.
      split; [rewrite (mod_succ _ _ HL Hmod); lia|].
      destruct (running_loss st); [discriminate|].
      destruct (b_loss b); [discriminate|reflexivity].
Qed.

(** X11.  For a positive [log_every], after every completed run from the
    initial state the window holds train_steps mod log_every steps, hence fewer
    than [log_every], and its loss sum is not NaN. *)
Theorem run_keeps_window (reduce : fval -> fval) (c : ctx) (bs : list batch)
    (m : named_params) (e : EMA.torch) (now : Qc) (st' : pstate)
    (evs : list event) :
  0 < log_every (c_args c) ->
  run_batches reduce c bs (initial_state m e now) = (evs, inr st') ->
  log_steps st' = train_steps st' mod log_every (c_args c)
  /\ 0 <= log_steps st' < log_every (c_args c)
  /\ isnan (running_loss st') = false.
Proof.
  intros HL Hrun.
  assert (Hinv : window_ok c st').
  { assert (H0 : window_ok c (initial_state m e now)).
    { split; [|reflexivity]. cbn. now rewrite Z.mod_0_l by lia. }
    revert H0 Hrun. generalize (initial_state m e now). revert evs.
    induction bs as [|b bs IH]; intros evs st H0 Hrun.
    - injection Hrun as _ <-. exact H0.
    - cbn [run_batches] in Hrun.
      destruct (run_with reduce (body c b st)) as [evs1 [e'|st1]] eqn:Hb;
        [discriminate|].
      destruct (run_batches reduce c bs st1) as [evs2 r] eqn:Hbs.
      injection Hrun as _ ->.
      apply (IH evs2 st1); [|exact Hbs].
      exact (body_keeps_window reduce c b st st1 evs1 HL H0 Hb). }
  destruct Hinv as [Hw Hn]. split; [exact Hw|]. split; [|exact Hn].
  rewrite Hw. now apply Z.mod_pos_bound.
Qed.

Lemma body_keeps_number (reduce : fval -> fval) (c : ctx) (b : batch)
    (st st' : pstate) (evs : list event) :
  isnan (running_loss st) = false ->
  run_with reduce (body c b st) = (evs, inr st') ->
  isnan (running_loss st') = false.
Proof.
  intros Hn Hrun.
  pose proof (body_completed reduce c b st st' evs Hrun) as Hbody.
  destruct (isnan (b_loss b)) eqn:Hnan.
  - destruct Hbody as [-> _]. exact Hn.
  - destruct Hbody as (_ & _ & st1 & -> & _ & _ & Hrl & _ & _).
    unfold counted. destruct (_ =? 0); cbn; [reflexivity|].
    rewrite Hrl. destruct (running_loss st); [discriminate|].
    destruct (b_loss b); [discriminate|reflexivity].
Qed.

(** X12.  A run that starts with a loss sum that is a number ends with a loss
    sum that is a number, whatever NaN losses the batches bring. *)
Theorem run_running_loss_is_number (reduce : fval -> fval) (c : ctx)
    (bs : list batch) (st st' : pstate) (evs : list event) :
  isnan (running_loss st) = false ->
  run_batches reduce c bs st = (evs, inr st') ->
  isnan (running_loss st') = false.
Proof.
  revert st evs. induction bs as [|b bs IH]; intros st evs Hn Hrun.
  - injection Hrun as _ <-. exact Hn.
  - cbn [run_batches] in Hrun.
    destruct (run_with reduce (body c b st)) as [evs1 [e'|st1]] eqn:Hb;
      [discriminate|].
    destruct (run_batches reduce c bs st1) as [evs2 r] eqn:Hbs.
    injection Hrun as _ ->.
    apply (IH st1 evs2); [|exact Hbs].
    exact (body_keeps_number reduce c b st st1 evs1 Hn Hb).
Qed.

(** *** Processes that do not meet in a collective *)


Lemma train_step_returns (b : batch) (st : pstate) (ema' : EMA.torch) :
  EMA.update_ema (stepped_model b st) EMA.default_decay (ema st)
  = (ema', inr tt) ->
  train_step b st
  = bind_proc (emit (step_events b st)) (fun _ => Ret (trained b st ema')).
Proof.
  unfold train_step, step_events, trained, stepped_model.
  destruct (scaler_steps (scaler st) (b_found_inf b));
    cbn [emit bind_proc app model ema scaler train_steps log_steps
         running_loss start_time item opt_steps];
    intros ->; reflexivity.
Qed.

Lemma train_step_raises (b : batch) (st : pstate) (ema' : EMA.torch) (e : exn) :
  EMA.update_ema (stepped_model b st) EMA.default_decay (ema st)
  = (ema', inl e) ->
  train_step b st
  = bind_proc (emit (step_events b st)) (fun _ => Raise e).
Proof.
  unfold train_step, step_events, stepped_model.
  destruct (scaler_steps (scaler st) (b_found_inf b));
    cbn [emit bind_proc app model ema scaler train_steps log_steps
         running_loss start_time item opt_steps];
    intros ->; reflexivity.
Qed.

Lemma bind_emit_assoc {A B : Type} (l : list event) (p : proc A)
    (k : A -> proc B) :
  bind_proc (bind_proc (emit l) (fun _ => p)) k
  = bind_proc (emit l) (fun _ => bind_proc p k).
Proof. induction l as [|ev l IH]; cbn; [reflexivity|now rewrite IH]. Qed.





(** *** Zero intervals *)

(** X14.  With [log_every] = 0, or with [ckpt_every] = 0 at a step without a
    report, a step that is not skipped raises [ZeroDivisionError] after its
    backward pass, optimizer step and EMA update, before the step is
    counted. *)
Theorem zero_interval_raises_after_update (reduce : fval -> fval) (c : ctx)
    (b : batch) (st : pstate) (ema' : EMA.torch) :
  isnan (b_loss b) = false ->
  EMA.update_ema (stepped_model b st) EMA.default_decay (ema st)
  = (ema', inr tt) ->
  log_every (c_args c) = 0
  \/ ((train_steps st + 1) mod log_every (c_args c) <> 0
      /\ ckpt_every (c_args c) = 0) ->
  run_with reduce (body c b st)
  = (step_prefix c b ++ step_events b st, inl ZeroDivisionError).
Proof.
  intros Hnan Hema Hzero.
  rewrite (body_step c b st Hnan), run_with_bind, run_with_emit.
  rewrite (train_step_returns b (skipped st) ema' Hema).
  rewrite bind_emit_assoc, run_with_bind, run_with_emit. cbn [bind_proc].
  change (step_events b (skipped st)) with (step_events b st).
  unfold finish, py_mod. cbn [train_steps count_step trained skipped].
  destruct Hzero as [Hlog|[Hmod Hck]].
  - rewrite Hlog. cbn. now rewrite app_nil_r.
  - destruct (log_every (c_args c) =? 0) eqn:Hlog.
    + cbn. now rewrite app_nil_r.
    + cbn [lift bind_proc]. rewrite (proj2 (Z.eqb_neq _ _) Hmod).
      cbn [bind_proc train_steps]. rewrite Hck. cbn. now rewrite app_nil_r.
Qed.

(** *** The barrier of a checkpoint *)

(** X15.  When all processes of a group enter the checkpoint step, the barrier
    releases them with their states unchanged; the process of rank 0 has
    written one checkpoint and its log note, the others have done nothing. *)
Theorem checkpoint_barrier_releases_group (a : args) (index len : Z)
    (sts : list pstate) :
  run_world 1 (group a index len save_checkpoint sts)
  = Finished
      (imap (fun i st =>
               (match i with
                | O =>
                    let c := group_ctx a index len (length sts) i in
                    TorchSave (checkpoint_path c (train_steps st))
                      (checkpoint_value c st)
                    :: ((fun s =>
                           LogEmit s
                             (MsgSaved (checkpoint_path c (train_steps st))))
                        <$> logger c)
                | S _ => []
                end, inr st)) sts).
Proof.
  destruct (decide (sts = [])) as [->|Hne]; [reflexivity|].
  unfold group. set (n := length sts).
  pose (evs := fun (i : nat) (st : pstate) =>
    match i with
    | O =>
        let c := group_ctx a index len n i in
        TorchSave (checkpoint_path c (train_steps st)) (checkpoint_value c st)
        :: ((fun s => LogEmit s (MsgSaved (checkpoint_path c (train_steps st))))
            <$> logger c)
    | S _ => []
    end).
  assert (Hadv : forall i st,
            advance (save_checkpoint (group_ctx a index len n i) st)
            = (evs i st, Barrier (Ret st))).
  { intros i st.
    assert (Hform : save_checkpoint (group_ctx a index len n i) st
                    = bind_proc (emit (evs i st)) (fun _ => Barrier (Ret st))).
    { unfold save_checkpoint, evs, logger_info. cbn [rank group_ctx].
      destruct i as [|i]; [reflexivity|].
      replace (Z.of_nat (S i) =? 0) with false
        by (symmetry; apply Z.eqb_neq; lia).
      reflexivity. }
    rewrite Hform, advance_emit_bind. cbn [advance fst snd].
    now rewrite app_nil_r. }
  cbn [run_world]. unfold advance_all. rewrite fmap_imap.
  rewrite (imap_ext _ (fun i st => (evs i st, Barrier (Ret st))))
    by (intros i st _; cbn; now rewrite Hadv).
  rewrite (mapM_imap_None (with_events finished)); [|exact Hne|reflexivity].
  rewrite (mapM_imap_None (fun x => contribution x.2)); [|exact Hne|reflexivity].
  rewrite (mapM_imap_Some _ _ _ (fun i st => (evs i st, Ret st))) by reflexivity.
  unfold advance_all. rewrite fmap_imap.
  rewrite (mapM_imap_Some _ _ _ (fun i st => (evs i st, inr st))).
  - reflexivity.
  - intros i st. cbn. now rewrite app_nil_r.
Qed.

(** *** The EMA model over a run *)

Lemma body_completed_step (reduce : fval -> fval) (c : ctx) (b : batch)
    (st st' : pstate) (evs : list event) :
  isnan (b_loss b) = false ->
  run_with reduce (body c b st) = (evs, inr st') ->
  exists ema',
    EMA.update_ema (stepped_model b st) EMA.default_decay (ema st)
    = (ema', inr tt)
    /\ st' = counted c b (trained b (skipped st) ema').
Proof.
  intros Hnan Hrun. rewrite (body_step c b st Hnan) in Hrun.
  rewrite run_with_bind, run_with_emit in Hrun.
  destruct (EMA.update_ema (stepped_model b st) EMA.default_decay (ema st))
    as [ema' [e|[]]] eqn:Hema.
  - rewrite (train_step_raises b (skipped st) ema' e Hema) in Hrun.
    rewrite bind_emit_assoc, run_with_bind, run_with_emit in Hrun.
    cbn in Hrun. discriminate.
  - exists ema'. split; [reflexivity|].
    rewrite (train_step_returns b (skipped st) ema' Hema) in Hrun.
    rewrite bind_emit_assoc, run_with_bind, run_with_emit in Hrun.
    cbn [bind_proc] in Hrun.
    destruct (run_with reduce (finish c b (trained b (skipped st) ema')))
      as [evs2 [e|st2]] eqn:Hfin; [discriminate|].
    injection Hrun as _ <-.
    now destruct (run_finish_state reduce c b _ st2 evs2 Hfin).
Qed.

Lemma ema_counted (c : ctx) (b : batch) (st1 : pstate) :
  ema (counted c b st1) = ema st1.
Proof. unfold counted. now destruct (_ =? 0). Qed.

(** X16.  Over a completed run of the loop the EMA model keeps its parameter
    names, its grad mode and its autograd tape. *)
Theorem run_keeps_ema_names (reduce : fval -> fval) (c : ctx) (bs : list batch)
    (st st' : pstate) (evs : list event) :
  run_batches reduce c bs st = (evs, inr st') ->
  dom (EMA.params (ema st')) = dom (EMA.params (ema st))
  /\ EMA.grad_enabled (ema st') = EMA.grad_enabled (ema st)
  /\ EMA.tape (ema st') = EMA.tape (ema st).
Proof.
  revert st evs. induction bs as [|b bs IH]; intros st evs Hrun.
  - injection Hrun as _ <-. auto.
  - cbn [run_batches] in Hrun.
    destruct (run_with reduce (body c b st)) as [evs1 [e'|st1]] eqn:Hb;
      [discriminate|].
    destruct (run_batches reduce c bs st1) as [evs2 r] eqn:Hbs.
    injection Hrun as _ ->.
    destruct (IH st1 evs2 Hbs) as (H1 & H2 & H3).
    assert (Hstep : dom (EMA.params (ema st1)) = dom (EMA.params (ema st))
                    /\ EMA.grad_enabled (ema st1) = EMA.grad_enabled (ema st)
                    /\ EMA.tape (ema st1) = EMA.tape (ema st)).
    { destruct (isnan (b_loss b)) eqn:Hnan.
      - destruct (body_nan_run reduce c b st Hnan) as (evs' & Hrun' & _).
        rewrite Hb in Hrun'. injection Hrun' as _ ->. auto.
      - destruct (body_completed_step reduce c b st st1 evs1 Hnan Hb)
          as (ema' & Hema & ->).
        rewrite ema_counted. cbn [ema trained].
        destruct (EMAInvariants.update_ema_keeps _ _ _ _ _ Hema)
          as (K1 & K2 & K3). auto. }
    destruct Hstep as (S1 & S2 & S3).
    split; [congruence|]. split; congruence.
Qed.

(** A run of three batches, the second of which is skipped. *)
Lemma three_batches_run :
  exists evs st',
    run_batches (fun v => v) sample_ctx three_batches sample_state
    = (evs, inr st').
Proof.
  pose (r := run_batches (fun v => v) sample_ctx three_batches sample_state).
  exists r.1, (match r.2 with inr s => s | inl _ => sample_state end).
  vm_compute. reflexivity.
Qed.

Lemma run_counts_unskipped_steps_witness :
  exists st',
    train_steps st' = train_steps sample_state + 2
    /\ item st' = item sample_state + 3.
Proof.
  destruct three_batches_run as (evs & st' & Hrun).
  destruct (run_counts_unskipped_steps _ _ _ _ _ _ Hrun) as (H1 & H2 & _).
  exists st'. split; [exact H1|exact H2].
Defined.

Lemma run_keeps_window_witness :
  exists st', log_steps st' = train_steps st' mod 10.
Proof.
  destruct three_batches_run as (evs & st' & Hrun).
  destruct (run_keeps_window (fun v => v) sample_ctx three_batches sample_model
              sample_ema 0%Qc st' evs) as (H1 & _).
  - reflexivity.
  - exact Hrun.
  - exists st'. exact H1.
Defined.

Lemma run_running_loss_is_number_witness :
  exists st', isnan (running_loss st') = false.
Proof.
  destruct three_batches_run as (evs & st' & Hrun).
  exists st'.
  apply (run_running_loss_is_number (fun v => v) sample_ctx three_batches
           sample_state st' evs eq_refl Hrun).
Defined.

Lemma run_keeps_ema_names_witness :
  exists st', dom (EMA.params (ema st')) = dom (EMA.params sample_ema).
Proof.
  destruct three_batches_run as (evs & st' & Hrun).
  destruct (run_keeps_ema_names _ _ _ _ _ _ Hrun) as (H1 & _).
  exists st'. exact H1.
Defined.

Lemma sample_update_returns :
  EMA.update_ema (stepped_model sample_batch before_tenth) EMA.default_decay
    (ema before_tenth)
  = ((EMA.update_ema (stepped_model sample_batch before_tenth)
        EMA.default_decay (ema before_tenth)).1, inr tt).
Proof. vm_compute. reflexivity. Qed.


Lemma zero_interval_raises_after_update_witness :
  run_with (fun v => v) (body zero_log_ctx sample_batch before_tenth)
  = (step_prefix zero_log_ctx sample_batch
     ++ step_events sample_batch before_tenth, inl ZeroDivisionError).
Proof.
  apply (zero_interval_raises_after_update (fun v => v) zero_log_ctx
           sample_batch before_tenth
           (EMA.update_ema (stepped_model sample_batch before_tenth)
              EMA.default_decay (ema before_tenth)).1
           eq_refl sample_update_returns).
  left. reflexivity.
Defined.

(** *** Steps in file names *)

Lemma uint_of_zeros (k : nat) (s : string) (d : Decimal.uint) :
  NilEmpty.uint_of_string s = Some d ->
  NilEmpty.uint_of_string (zeros k ++ s)
  = Some (Nat.iter k Decimal.D0 d).
Proof.
  intros Hs. induction k as [|k IH]; [exact Hs|].
  change (NilEmpty.uint_of_string (zeros (S k) ++ s))
    with (uint_of_char "0" (NilEmpty.uint_of_string (zeros k ++ s))).
  rewrite IH. reflexivity.
Qed.

Lemma of_uint_zeros (k : nat) (d : Decimal.uint) :
  N.of_uint (Nat.iter k Decimal.D0 d) = N.of_uint d.
Proof. induction k as [|k IH]; [reflexivity|exact IH]. Qed.

Lemma to_uint_nonnil (n : N) : N.to_uint n <> Decimal.Nil.
Proof.
  destruct n as [|p]; [discriminate|]. apply Unsigned.to_uint_nonnil.
Qed.

Lemma uint_of_digits (n : N) :
  NilEmpty.uint_of_string (digits n) = Some (N.to_uint n).
Proof.
  unfold digits. pose proof (NilZero.usu _ (to_uint_nonnil n)) as H.
  unfold NilZero.uint_of_string in H.
  destruct (NilZero.string_of_uint (N.to_uint n)); [discriminate|exact H].
Qed.

Lemma read_zfill (width : nat) (n : N) :
  read_digits (zfill width (digits n)) = Some (Z.of_N n).
Proof.
  unfold read_digits, zfill.
  rewrite (uint_of_zeros _ _ _ (uint_of_digits n)), of_uint_zeros.
  now rewrite DecimalN.Unsigned.of_to.
Qed.

Lemma read_format_nonneg (width : nat) (z : Z) :
  0 <= z -> read_digits (format_0d width z) = Some z.
Proof.
  intros Hz. unfold format_0d. rewrite (proj2 (Z.ltb_ge _ _) Hz).
  rewrite read_zfill. f_equal. lia.
Qed.

(** X17.  The zero-padded decimal form of a step that is not negative reads
    back as that step, whatever the width. *)
Theorem read_format_0d (width : nat) (z : Z) :
  0 <= z -> read_digits (format_0d width z) = Some z.
Proof. exact (read_format_nonneg width z). Qed.

Lemma read_format_0d_witness : read_digits (format_0d 7 6000) = Some 6000.
Proof. apply read_format_0d. lia. Defined.

Lemma append_cancel_r (s1 s2 t : string) :
  String.length s1 = String.length s2 ->
  (s1 ++ t = s2 ++ t)%string -> s1 = s2.
Proof.
  revert s2. induction s1 as [|a s1 IH]; intros [|b s2] Hlen H;
    try discriminate; [reflexivity|].
  cbn in H. injection H as -> H. f_equal. apply IH; [|exact H].
  cbn in Hlen. lia.
Qed.

Lemma length_append (s t : string) :
  String.length (s ++ t) = (String.length s + String.length t)%nat.
Proof.
  induction s as [|a s IH]; [reflexivity|].
  change (S (String.length (s ++ t)) = S (String.length s + String.length t))%nat.
  now rewrite IH.
Qed.

(** X18.  Within one run the checkpoints of two different steps have
    different paths: no checkpoint overwrites another. *)
Theorem checkpoint_path_injective (c : ctx) (n m : Z) :
  0 <= n -> 0 <= m ->
  checkpoint_path c n = checkpoint_path c m -> n = m.
Proof.
  intros Hn Hm H. unfold checkpoint_path in H.
  apply String.app_inj in H. apply String.app_inj in H.
  apply append_cancel_r in H.
  - apply (f_equal read_digits) in H.
    rewrite !read_format_nonneg in H by assumption. congruence.
  - apply (f_equal String.length) in H. rewrite !length_append in H. lia.
Qed.

Lemma checkpoint_path_injective_witness : 10 = 10.
Proof.
  apply (checkpoint_path_injective sample_ctx 10 10); [lia|lia|reflexivity].
Defined.

End CoordinatorRuns.

(** ** Command-line entry point: start-up *)

Module CliStartup.
Import Py Cli CliProofs.
Local Open Scope Z_scope.

Lemma getattr_with_folders (ct mask mir : value) (ns : namespace) (name : string) :
  name <> "ct_image_folder_train" -> name <> "mask_image_folder_train" ->
  name <> "mir_image_folder_train" ->
  getattr (with_folders ct mask mir ns) name = getattr ns name.
Proof.
  intros H1 H2 H3. unfold getattr, with_folders.
  now rewrite !lookup_insert_ne by congruence.
Qed.

(** X19.  Called on a namespace of the parser to which the three dataset
    folders have been added, on a machine where every start-up step succeeds,
    [main] enters the training loop. *)
Theorem main_with_folders_reaches_loop (ns : namespace) (ev : env) (r : Z)
    (ct mask mir : value) :
  parsed parser ns ->
  cuda_available ev = true ->
  get_rank ev = inr r ->
  device_count ev <> 0 ->
  (forall c, fails ev c = None) ->
  main (with_folders ct mask mir ns) ev = inr TrainingLoop.
Proof.
  intros Hp Hcuda Hrank Hdev Hext.
  destruct (parsed_has ns "global_seed" Hp ltac:(in_parser)) as [v1 H1].
  destruct (parsed_has ns "wandb" Hp ltac:(in_parser)) as [v2 H2].
  destruct (parsed_has ns "epochs" Hp ltac:(in_parser)) as [v3 H3].
  destruct (parsed_has ns "global_batch_size" Hp ltac:(in_parser)) as [v4 H4].
  destruct (parsed_has ns "results_dir" Hp ltac:(in_parser)) as [v5 H5].
  destruct (parsed_has ns "embed_dim" Hp ltac:(in_parser)) as [v7 H7].
  destruct (parsed_has ns "vae" Hp ltac:(in_parser)) as [v8 H8].
  destruct (parsed_has ns "num_workers" Hp ltac:(in_parser)) as [v9 H9].
  destruct (parsed_getattr ns
              (Argument "--image-size" (KInt (Some [224; 256; 512])) (VInt 224))
              Hp) as (v6 & H6 & Ha6).
  { unfold parser. apply elem_of_cons. right. apply elem_of_cons. now left. }
  change (dest _) with "image_size" in H6. cbn [arg_kind] in Ha6.
  destruct (image_size_divisible v6 Ha6) as (z & Hz & Hmod).
  set (ns' := with_folders ct mask mir ns).
  assert (G1 : getattr ns' "global_seed" = inr v1)
    by (unfold ns'; now rewrite getattr_with_folders).
  assert (G2 : getattr ns' "wandb" = inr v2)
    by (unfold ns'; now rewrite getattr_with_folders).
  assert (G3 : getattr ns' "epochs" = inr v3)
    by (unfold ns'; now rewrite getattr_with_folders).
  assert (G4 : getattr ns' "global_batch_size" = inr v4)
    by (unfold ns'; now rewrite getattr_with_folders).
  assert (G5 : getattr ns' "results_dir" = inr v5)
    by (unfold ns'; now rewrite getattr_with_folders).
  assert (G6 : getattr ns' "image_size" = inr v6)
    by (unfold ns'; now rewrite getattr_with_folders).
  assert (G7 : getattr ns' "embed_dim" = inr v7)
    by (unfold ns'; now rewrite getattr_with_folders).
  assert (G8 : getattr ns' "vae" = inr v8)
    by (unfold ns'; now rewrite getattr_with_folders).
  assert (G9 : getattr ns' "num_workers" = inr v9)
    by (unfold ns'; now rewrite getattr_with_folders).
  assert (F1 : getattr ns' "ct_image_folder_train" = inr ct).
  { unfold ns', with_folders, getattr. now rewrite lookup_insert_eq. }
  assert (F2 : getattr ns' "mask_image_folder_train" = inr mask).
  { unfold ns', with_folders, getattr.
    rewrite lookup_insert_ne by discriminate. now rewrite lookup_insert_eq. }
  assert (F3 : getattr ns' "mir_image_folder_train" = inr mir).
  { unfold ns', with_folders, getattr.
    rewrite !lookup_insert_ne by discriminate. now rewrite lookup_insert_eq. }
  clearbody ns'.
  unfold main, external, assert.
  rewrite (proj2 (Z.eqb_neq _ _) Hdev).
  repeat (first [ rewrite Hext | rewrite Hcuda | rewrite Hrank | rewrite G1
                | rewrite G2 | rewrite G3 | rewrite G4 | rewrite G5
                | rewrite G6 | rewrite G7 | rewrite G8 | rewrite G9
                | rewrite F1 | rewrite F2 | rewrite F3 | rewrite Hz
                | rewrite Hmod | progress cbn [bind] ]).
  destruct (r =? 0); [destruct (truthy v2)|]; 
  repeat (first [ rewrite Hext | rewrite G3 | rewrite G4 | rewrite G5
                | progress cbn [bind] ]); reflexivity.
Qed.

(** X20.  On every namespace the parser returns, the image size is an integer
    divisible by 8: the assertion of line 76 passes. *)
Theorem image_size_assertion_passes (ns : namespace) :
  parsed parser ns ->
  bind (getattr ns "image_size") (fun image_size =>
    bind (as_int image_size) (fun image_size =>
      assert (image_size mod 8 =? 0)
        "Image size must be divisible by 8 (for the VAE encoder)."))
  = inr tt.
Proof.
  intros Hp.
  destruct (parsed_getattr ns
              (Argument "--image-size" (KInt (Some [224; 256; 512])) (VInt 224))
              Hp) as (v6 & H6 & Ha6).
  { unfold parser. apply elem_of_cons. right. apply elem_of_cons. now left. }
  change (dest _) with "image_size" in H6. cbn [arg_kind] in Ha6.
  destruct (image_size_divisible v6 Ha6) as (z & Hz & Hmod).
  rewrite H6. cbn [bind]. rewrite Hz. cbn [bind]. unfold assert.
  now rewrite Hmod.
Qed.

(** X21.  On a process whose rank is not 0, the outcome of [main] does not
    depend on whether creating the directories or starting wandb would fail:
    these calls are made by rank 0 only. *)
Theorem other_ranks_leave_directories_alone (ns : namespace) (ev : env)
    (r : Z) (fails' : call -> option exn) :
  get_rank ev = inr r -> r <> 0 ->
  (forall c, c <> Makedirs -> c <> WandbInit -> fails' c = fails ev c) ->
  main ns (Env (cuda_available ev) (get_rank ev) (device_count ev) fails')
  = main ns ev.
Proof.
  intros Hrank Hr Hsame. unfold main, external.
  cbn [cuda_available get_rank device_count fails].
  destruct (assert (cuda_available ev) _) as [e|[]]; cbn [bind]; [reflexivity|].
  destruct (getattr ns "global_seed") as [e|seed]; cbn [bind]; [reflexivity|].
  rewrite Hrank. cbn [bind].
  destruct (device_count ev =? 0); cbn [bind]; [reflexivity|].
  rewrite !(proj2 (Z.eqb_neq _ _) Hr).
  rewrite !Hsame by discriminate. reflexivity.
Qed.

Lemma main_with_folders_reaches_loop_witness :
  main (with_folders (VStr "ct") (VStr "mask") (VStr "mir") (defaults parser))
    healthy_env
  = inr TrainingLoop.
Proof.
  apply (main_with_folders_reaches_loop _ _ 0).
  - exact parsed_defaults.
  - reflexivity.
  - reflexivity.
  - discriminate.
  - reflexivity.
Defined.

Lemma image_size_assertion_passes_witness :
  bind (getattr (defaults parser) "image_size") (fun image_size =>
    bind (as_int image_size) (fun image_size =>
      assert (image_size mod 8 =? 0)
        "Image size must be divisible by 8 (for the VAE encoder)."))
  = inr tt.
Proof. apply image_size_assertion_passes. exact parsed_defaults. Defined.

Lemma other_ranks_leave_directories_alone_witness :
  main (defaults parser) (Env true (inr 1) 1 makedirs_fails)
  = main (defaults parser) rank_1_env.
Proof.
  apply (other_ranks_leave_directories_alone (defaults parser) rank_1_env 1).
  - reflexivity.
  - discriminate.
  - intros c H1 H2. destruct c; try reflexivity. contradiction.
Defined.

End CliStartup.
